(** * voice-to-text: the transcription gateway and the recorder component

    A shallow embedding of the two source files of the repository:

    - [src/app/api/transcribe/route.ts], the [POST] handler that receives an
      uploaded audio file and forwards it to the external speech-to-text
      model (module [Gateway]);
    - the client component ([Component]), whose React state, refs and event
      handlers are modelled by explicit state passing over a [Session]
      record (module [Recorder]), and whose asynchronous callbacks are the
      events of a small transition system (module [Lifecycle]).

    Conventions.  A JavaScript string is a Rocq [string], one character per
    UTF-16 code unit (code units above 255 are outside the model).  Integers
    that the code handles (sizes, HTTP statuses, epoch milliseconds) are
    [N] or [Z].  [console.log] and [console.error] calls have no effect on
    the values studied here and are left out. *)

From Stdlib Require Import Strings.Byte Strings.Ascii Strings.String.
From stdpp Require Import gmap strings list pretty.

Open Scope Z_scope.

(** ** JavaScript values shared by both sides *)

(** A thrown [Error]: the three properties the code reads. *)
Record JsError := {
  message : string;
  stack : string;
  constructor_name : string;
}.

(** [new Error(msg)], as thrown by the component itself. *)
Definition new_Error (msg : string) : JsError :=
  {| message := msg; stack := ""; constructor_name := "Error" |}.

(** JSON values.  Arrays and fractional numbers never occur in the bodies
    exchanged here and are left out. *)
#[warnings="-register-all"]
Inductive Json :=
| JNull
| JBool (b : bool)
| JNum (n : Z)
| JStr (s : string)
| JObj (fields : list (string * Json)).

(** The bytes of an [ArrayBuffer] / [Uint8Array]: a length and the byte at
    every offset below it. *)
Record Bytes := {
  byteLength : N;
  byteAt : N → byte;
}.

Definition Bytes_empty : Bytes :=
  {| byteLength := 0; byteAt := λ _, x00 |}.

Definition Bytes_concat (a b : Bytes) : Bytes :=
  {| byteLength := byteLength a + byteLength b;
     byteAt := λ i, if (i <? byteLength a)%N then byteAt a i
                    else byteAt b (i - byteLength a)%N |}.

(** [Blob]: an opaque payload with a declared mime type. *)
Record Blob := {
  bytes : Bytes;
  type : string;
}.

Definition size (b : Blob) : N := byteLength (bytes b).

(** [new Blob(parts, { type })]. *)
Definition new_Blob (parts : list Blob) (ty : string) : Blob :=
  {| bytes := foldr (λ p acc, Bytes_concat (bytes p) acc) Bytes_empty parts;
     type := ty |}.

(** [File]: a [Blob] with a file name. *)
Record File := {
  name : string;
  blob_of : Blob;
}.

(** [new File([blob], fileName, { type })]. *)
Definition new_File (b : Blob) (fileName ty : string) : File :=
  {| name := fileName; blob_of := new_Blob [b] ty |}.

(** Truthiness of a string ([""] is falsy). *)
Definition truthy (s : string) : bool :=
  match s with
  | EmptyString => false
  | String _ _ => true
  end.

(** *** [JSON.stringify] on [Json] *)

Definition hex_digit (n : N) : ascii :=
  match n with
  | 0 => "0" | 1 => "1" | 2 => "2" | 3 => "3" | 4 => "4" | 5 => "5"
  | 6 => "6" | 7 => "7" | 8 => "8" | 9 => "9" | 10 => "a" | 11 => "b"
  | 12 => "c" | 13 => "d" | 14 => "e" | _ => "f"
  end%N%char.

Definition dquote : ascii := ascii_of_N 34.
Definition backslash : ascii := ascii_of_N 92.

(** One code unit inside a JSON string literal. *)
Definition quote_char (c : ascii) : string :=
  let n := N_of_ascii c in
  if (n =? 34)%N then String backslash (String dquote "")
  else if (n =? 92)%N then "\\"
  else if (n =? 8)%N then "\b"
  else if (n =? 9)%N then "\t"
  else if (n =? 10)%N then "\n"
  else if (n =? 12)%N then "\f"
  else if (n =? 13)%N then "\r"
  else if (n <? 32)%N then
    "\u00" +:+ String (hex_digit (n / 16)%N) (String (hex_digit (n mod 16)%N) "")
  else String c "".

Fixpoint quote_chars (s : string) : string :=
  match s with
  | EmptyString => ""
  | String c s' => quote_char c +:+ quote_chars s'
  end.

Definition quote (s : string) : string :=
  String dquote (quote_chars s +:+ String dquote "").

Fixpoint JSON_stringify (j : Json) : string :=
  match j with
  | JNull => "null"
  | JBool true => "true"
  | JBool false => "false"
  | JNum n => pretty n
  | JStr s => quote s
  | JObj fields =>
      let member kv := quote kv.1 +:+ ":" +:+ JSON_stringify kv.2 in
      let fix members (fs : list (string * Json)) : string :=
        match fs with
        | [] => ""
        | [kv] => member kv
        | kv :: rest => member kv +:+ "," +:+ members rest
        end in
      "{" +:+ members fields +:+ "}"
  end.

(** Property read [obj.key] on a parsed JSON object (which has every name
    at most once): the member of that name, [None] standing for
    [undefined]. *)
Fixpoint get_property (key : string) (fields : list (string * Json)) : option Json :=
  match fields with
  | [] => None
  | (k, v) :: rest => if decide (k = key) then Some v else get_property key rest
  end.

(** ** The transcription gateway ([src/app/api/transcribe/route.ts]) *)

Module Gateway.

(** A value stored in a [FormData] entry. *)
Inductive FormDataEntryValue :=
| EntryFile (f : File)
| EntryString (s : string).

Definition FormData := list (string * FormDataEntryValue).

(** [formData.get(name)]: the first entry of that name, [None] for [null]. *)
Fixpoint FormData_get (key : string) (fd : FormData) : option FormDataEntryValue :=
  match fd with
  | [] => None
  | (k, v) :: rest => if decide (k = key) then Some v else FormData_get key rest
  end.

(** The incoming request: [request.formData()] either throws (the body is
    not form data) or yields the parsed entries. *)
Record NextRequest := {
  formData : JsError + FormData;
}.

(** [NextResponse.json(body, { status })]; the status defaults to 200. *)
Record NextResponse := {
  status : Z;
  body : Json;
}.

Definition NextResponse_json (b : Json) (st : Z) : NextResponse :=
  {| status := st; body := b |}.

(** The ceiling on the upload size, [25 * 1024 * 1024]. *)
Definition size_limit : N := 25 * 1024 * 1024.

(** The response built in the [catch] block. *)
Definition failure_response (error : JsError) : NextResponse :=
  NextResponse_json
    (JObj [("error", JStr ("Transcription failed: " +:+ message error));
           ("details", JStr (stack error));
           ("type", JStr (constructor_name error));
           ("debug", JObj [("error", JObj [("message", JStr (message error));
                                           ("type", JStr (constructor_name error));
                                           ("stack", JStr (stack error))])])])
    500.

Definition requestDetails (audioFile : File) (audioData : Bytes) : Json :=
  JObj [("model", JStr "whisper-1");
        ("audioSize", JNum (Z.of_N (byteLength audioData)));
        ("audioType", JStr (type (blob_of audioFile)));
        ("fileName", JStr (name audioFile));
        ("language", JStr "auto-detect");
        ("endpoint", JStr "AI SDK transcribe")].

Definition responseDetails (text : string) : Json :=
  JObj [("text", JStr text);
        ("textLength", JNum (Z.of_nat (String.length text)));
        ("success", JBool true)].

Section POST.

(** The external speech-to-text model, [transcribe] of the AI SDK with
    [whisper-1]: bytes in, recognised text or a thrown error out. *)
Variable transcribe : Bytes → JsError + string.

(** The [TypeError] the runtime throws at [audioFile.arrayBuffer()] when
    the [audio] entry is a non-empty string and not a file. *)
Variable not_a_function : JsError.

(** [POST]: the response, paired with the audio of every call made to the
    external model while handling the request. *)
Definition POST (request : NextRequest) : list Bytes * NextResponse :=
  match formData request with
  | inl error => ([], failure_response error)
  | inr fd =>
      match FormData_get "audio" fd with
      | None | Some (EntryString EmptyString) =>
          ([], NextResponse_json (JObj [("error", JStr "No audio file provided")]) 400)
      | Some (EntryString _) =>
          (* [undefined > limit] is false; the call of [arrayBuffer] throws *)
          ([], failure_response not_a_function)
      | Some (EntryFile audioFile) =>
          if (size_limit <? size (blob_of audioFile))%N then
            ([], NextResponse_json (JObj [("error", JStr "File size exceeds 25MB limit")]) 400)
          else
            let audioData := bytes (blob_of audioFile) in
            match transcribe audioData with
            | inl error => ([audioData], failure_response error)
            | inr text =>
                ([audioData],
                 NextResponse_json
                   (JObj [("text", JStr text);
                          ("success", JBool true);
                          ("debug", JObj [("request", requestDetails audioFile audioData);
                                          ("response", responseDetails text)])])
                   200)
            end
      end
  end.

End POST.

(** The error kinds of the gateway, read off a response. *)
Definition error_of (r : NextResponse) : option Json :=
  match body r with
  | JObj fields => get_property "error" fields
  | _ => None
  end.

Definition PayloadTooLarge (r : NextResponse) : Prop :=
  status r = 400 ∧ error_of r = Some (JStr "File size exceeds 25MB limit").

Definition client_error (r : NextResponse) : Prop :=
  400 ≤ status r < 500.

End Gateway.

(** ** The recorder component ([Component]) *)

Module Recorder.

(** *** What [fetch] hands back *)

(** The body of a response: JSON, or text on which [response.json()]
    throws the given [SyntaxError]. *)
Inductive ResponseBody :=
| JsonBody (j : Json)
| TextBody (raw : string) (syntaxError : JsError).

Record Response := {
  status : Z;
  body : ResponseBody;
}.

(** [response.ok]: the status is in the range 200-299. *)
Definition ok (response : Response) : bool :=
  (200 <=? status response) && (status response <=? 299).

(** [await response.text()]. *)
Definition text (response : Response) : string :=
  match body response with
  | JsonBody j => JSON_stringify j
  | TextBody raw _ => raw
  end.

(** [await response.json()]. *)
Definition json (response : Response) : JsError + Json :=
  match body response with
  | JsonBody j => inr j
  | TextBody _ syntaxError => inl syntaxError
  end.

(** [await fetch(...)]: a rejection (network failure) or a response. *)
Inductive FetchResult :=
| FetchFailed (error : JsError)
| FetchResponse (response : Response).

(** [result.text] for a parsed body [result]: reading a property of [null]
    throws, primitives have no such property. *)
Definition result_text (result : Json) : JsError + option Json :=
  match result with
  | JObj fields => inr (get_property "text" fields)
  | JNull =>
      inl {| message := "Cannot read properties of null (reading 'text')";
             stack := ""; constructor_name := "TypeError" |}
  | _ => inr None
  end.

(** Truthiness of a JSON value, and of a possibly [undefined] one. *)
Definition truthy_value (v : Json) : bool :=
  match v with
  | JNull => false
  | JBool b => b
  | JNum n => negb (n =? 0)
  | JStr s => truthy s
  | JObj _ => true
  end.

(** [String(v)], the conversion applied by a template literal and by the
    [value] setter of a text area. *)
Definition String_of (v : Json) : string :=
  match v with
  | JNull => "null"
  | JBool true => "true"
  | JBool false => "false"
  | JNum n => pretty n
  | JStr s => s
  | JObj _ => "[object Object]"
  end.

(** *** State *)

Record AudioRecording := {
  id : string;
  url : string;
  blob : Blob;
  timestamp : Z;                 (* a [Date], as epoch milliseconds *)
  transcription : option Json;   (* declared [string]; holds [result.text] *)
}.

(** [{ ...recording, transcription: t }]. *)
Definition with_transcription (t : Json) (recording : AudioRecording) : AudioRecording :=
  {| id := id recording; url := url recording; blob := blob recording;
     timestamp := timestamp recording; transcription := Some t |}.

(** The [MediaRecorder] created by [startRecording]; its [onstop] closure
    keeps the mime type chosen there. *)
Record MediaRecorder := {
  mimeType : string;
}.

(** An [<audio>] element, as far as it matters here: whether it plays.
    [paused] is up when the element does not play, be it that it was
    paused or that it has played to its end (the browser raises the
    attribute proper in the task that fires [ended], and lowers it again
    in [play()]). *)
Record HTMLAudioElement := {
  paused : bool;
}.

Definition pause (el : HTMLAudioElement) : HTMLAudioElement :=
  {| paused := true |}.

(** [el.play()]: playback starts unless the browser rejects the request. *)
Definition play (allowed : bool) (el : HTMLAudioElement) : HTMLAudioElement :=
  if allowed then {| paused := false |} else el.

Definition playing (el : HTMLAudioElement) : bool := negb (paused el).

Record HTMLTextAreaElement := {
  value : string;
}.

(** The [useState] cells and the [useRef] cells of the component. *)
Record Session := {
  isRecording : bool;
  hasPermission : option bool;
  recordings : list AudioRecording;
  isProcessing : bool;
  playingId : option string;
  isTranscribing : bool;
  transcriptionError : option string;
  mediaRecorderRef : option MediaRecorder;
  audioChunksRef : list Blob;
  audioRefs : gmap string HTMLAudioElement;
  textareaRef : option HTMLTextAreaElement;
}.

(** The component once mounted: initial [useState] values, the text area
    attached to its ref and empty. *)
Definition initial : Session :=
  {| isRecording := false; hasPermission := None; recordings := [];
     isProcessing := false; playingId := None; isTranscribing := false;
     transcriptionError := None; mediaRecorderRef := None;
     audioChunksRef := []; audioRefs := ∅;
     textareaRef := Some {| value := "" |} |}.

(** The state setters, and assignments to the [current] of each ref. *)
Definition setIsRecording (b : bool) (s : Session) : Session :=
  {| isRecording := b; hasPermission := hasPermission s;
     recordings := recordings s; isProcessing := isProcessing s;
     playingId := playingId s; isTranscribing := isTranscribing s;
     transcriptionError := transcriptionError s;
     mediaRecorderRef := mediaRecorderRef s;
     audioChunksRef := audioChunksRef s; audioRefs := audioRefs s;
     textareaRef := textareaRef s |}.

Definition setHasPermission (p : option bool) (s : Session) : Session :=
  {| isRecording := isRecording s; hasPermission := p;
     recordings := recordings s; isProcessing := isProcessing s;
     playingId := playingId s; isTranscribing := isTranscribing s;
     transcriptionError := transcriptionError s;
     mediaRecorderRef := mediaRecorderRef s;
     audioChunksRef := audioChunksRef s; audioRefs := audioRefs s;
     textareaRef := textareaRef s |}.

Definition setRecordings (f : list AudioRecording → list AudioRecording)
    (s : Session) : Session :=
  {| isRecording := isRecording s; hasPermission := hasPermission s;
     recordings := f (recordings s); isProcessing := isProcessing s;
     playingId := playingId s; isTranscribing := isTranscribing s;
     transcriptionError := transcriptionError s;
     mediaRecorderRef := mediaRecorderRef s;
     audioChunksRef := audioChunksRef s; audioRefs := audioRefs s;
     textareaRef := textareaRef s |}.

Definition setIsProcessing (b : bool) (s : Session) : Session :=
  {| isRecording := isRecording s; hasPermission := hasPermission s;
     recordings := recordings s; isProcessing := b;
     playingId := playingId s; isTranscribing := isTranscribing s;
     transcriptionError := transcriptionError s;
     mediaRecorderRef := mediaRecorderRef s;
     audioChunksRef := audioChunksRef s; audioRefs := audioRefs s;
     textareaRef := textareaRef s |}.

Definition setPlayingId (p : option string) (s : Session) : Session :=
  {| isRecording := isRecording s; hasPermission := hasPermission s;
     recordings := recordings s; isProcessing := isProcessing s;
     playingId := p; isTranscribing := isTranscribing s;
     transcriptionError := transcriptionError s;
     mediaRecorderRef := mediaRecorderRef s;
     audioChunksRef := audioChunksRef s; audioRefs := audioRefs s;
     textareaRef := textareaRef s |}.

Definition setIsTranscribing (b : bool) (s : Session) : Session :=
  {| isRecording := isRecording s; hasPermission := hasPermission s;
     recordings := recordings s; isProcessing := isProcessing s;
     playingId := playingId s; isTranscribing := b;
     transcriptionError := transcriptionError s;
     mediaRecorderRef := mediaRecorderRef s;
     audioChunksRef := audioChunksRef s; audioRefs := audioRefs s;
     textareaRef := textareaRef s |}.

Definition setTranscriptionError (e : option string) (s : Session) : Session :=
  {| isRecording := isRecording s; hasPermission := hasPermission s;
     recordings := recordings s; isProcessing := isProcessing s;
     playingId := playingId s; isTranscribing := isTranscribing s;
     transcriptionError := e;
     mediaRecorderRef := mediaRecorderRef s;
     audioChunksRef := audioChunksRef s; audioRefs := audioRefs s;
     textareaRef := textareaRef s |}.

Definition set_mediaRecorderRef (r : option MediaRecorder) (s : Session) : Session :=
  {| isRecording := isRecording s; hasPermission := hasPermission s;
     recordings := recordings s; isProcessing := isProcessing s;
     playingId := playingId s; isTranscribing := isTranscribing s;
     transcriptionError := transcriptionError s;
     mediaRecorderRef := r;
     audioChunksRef := audioChunksRef s; audioRefs := audioRefs s;
     textareaRef := textareaRef s |}.

Definition set_audioChunksRef (chunks : list Blob) (s : Session) : Session :=
  {| isRecording := isRecording s; hasPermission := hasPermission s;
     recordings := recordings s; isProcessing := isProcessing s;
     playingId := playingId s; isTranscribing := isTranscribing s;
     transcriptionError := transcriptionError s;
     mediaRecorderRef := mediaRecorderRef s;
     audioChunksRef := chunks; audioRefs := audioRefs s;
     textareaRef := textareaRef s |}.

Definition set_audioRefs (refs : gmap string HTMLAudioElement) (s : Session) : Session :=
  {| isRecording := isRecording s; hasPermission := hasPermission s;
     recordings := recordings s; isProcessing := isProcessing s;
     playingId := playingId s; isTranscribing := isTranscribing s;
     transcriptionError := transcriptionError s;
     mediaRecorderRef := mediaRecorderRef s;
     audioChunksRef := audioChunksRef s; audioRefs := refs;
     textareaRef := textareaRef s |}.

Definition set_textareaRef (t : option HTMLTextAreaElement) (s : Session) : Session :=
  {| isRecording := isRecording s; hasPermission := hasPermission s;
     recordings := recordings s; isProcessing := isProcessing s;
     playingId := playingId s; isTranscribing := isTranscribing s;
     transcriptionError := transcriptionError s;
     mediaRecorderRef := mediaRecorderRef s;
     audioChunksRef := audioChunksRef s; audioRefs := audioRefs s;
     textareaRef := t |}.

(** *** Handlers *)

(** What the browser answers while [startRecording] runs. *)
Record Device := {
  getUserMedia : bool;      (* microphone access is granted *)
  isTypeSupported : bool;   (* [MediaRecorder.isTypeSupported] for opus *)
  recorderCreated : bool;   (* [new MediaRecorder(stream, { mimeType })] does not throw *)
}.

(** [startRecording] when no other handler runs while it waits for the
    browser; its two halves, before and after the [await], follow below
    as [startRecording_begin] and [startRecording_resume]. *)
Definition startRecording (dev : Device) (s : Session) : Session :=
  let s := setTranscriptionError None s in
  if getUserMedia dev then
    let s := setHasPermission (Some true) s in
    let s := set_audioChunksRef [] s in
    let mimeType :=
      if isTypeSupported dev then "audio/webm;codecs=opus" else "audio/webm" in
    if recorderCreated dev then
      let s := set_mediaRecorderRef (Some {| mimeType := mimeType |}) s in
      setIsRecording true s
    else setHasPermission (Some false) s
  else setHasPermission (Some false) s.

(** [mediaRecorderRef.current.ondataavailable]. *)
Definition ondataavailable (data : Blob) (s : Session) : Session :=
  if (0 <? size data)%N then set_audioChunksRef (audioChunksRef s ++ [data]) s
  else s.

(** The arguments of one invocation of [transcribeAudio], kept by its
    closure while the request is pending. *)
Record Call := {
  call_blob : Blob;
  call_mimeType : string;
  call_recordingId : string;
}.

(** The file that the invocation builds, and the form data it uploads. *)
Definition audioFile (c : Call) : File :=
  new_File (call_blob c) "recording.webm" (call_mimeType c).

Definition upload (c : Call) : Gateway.FormData :=
  [("audio", Gateway.EntryFile (audioFile c))].

(** [transcribeAudio], up to its [await fetch(...)]: the flags are set and
    the request is issued. *)
Definition transcribeAudio (blob : Blob) (mimeType recordingId : string)
    (s : Session) : Session * Call :=
  let s := setIsTranscribing true s in
  let s := setTranscriptionError None s in
  (s, {| call_blob := blob; call_mimeType := mimeType;
         call_recordingId := recordingId |}).

(** The [try] block after the [await]: the error it throws, or the truthy
    [result.text] it goes on with. *)
Definition received (o : FetchResult) : JsError + Json :=
  match o with
  | FetchFailed error => inl error
  | FetchResponse response =>
      if negb (ok response) then
        let errorText := text response in
        inl (new_Error ("API request failed: " +:+ pretty (status response)
                        +:+ " - " +:+ errorText))
      else
        match json response with
        | inl error => inl error
        | inr result =>
            match result_text result with
            | inl error => inl error
            | inr (Some t) =>
                if truthy_value t then inr t
                else inl (new_Error "No transcription text received")
            | inr None => inl (new_Error "No transcription text received")
            end
        end
  end.

(** [transcribeAudio], from the settling of the request to its end. *)
Definition transcribeAudio_settle (recordingId : string) (o : FetchResult)
    (s : Session) : Session :=
  let s :=
    match received o with
    | inr result_text =>
        let s :=
          setRecordings
            (λ prev, (λ recording,
                        if decide (id recording = recordingId)
                        then with_transcription result_text recording
                        else recording) <$> prev) s in
        match textareaRef s with
        | Some textarea =>
            let currentText := value textarea in
            let newText :=
              if truthy currentText
              then currentText +:+ " " +:+ String_of result_text
              else String_of result_text in
            set_textareaRef (Some {| value := newText |}) s
        | None => s
        end
    | inl error => setTranscriptionError (Some (message error)) s
    end in
  setIsTranscribing false s.

Definition retryTranscription (recording : AudioRecording) (s : Session)
    : Session * Call :=
  let mimeType :=
    if truthy (type (blob recording)) then type (blob recording) else "audio/webm" in
  transcribeAudio (blob recording) mimeType (id recording) s.

(** The [onClick] of the Retry button. *)
Definition onRetryClick (s : Session) : Session * option Call :=
  match last (recordings s) with
  | Some lastRecording =>
      let '(s, c) := retryTranscription lastRecording s in (s, Some c)
  | None => (s, None)
  end.

(** [mediaRecorderRef.current.onstop], for the recorder created with
    [mimeType]; [now] is what [Date.now()] reads, [date] what [new Date()]
    reads, [objectURL] what [URL.createObjectURL] returns. *)
Definition onstop (mimeType : string) (now date : Z) (objectURL : string)
    (s : Session) : Session * Call :=
  let s := setIsProcessing true s in
  let audioBlob := new_Blob (audioChunksRef s) mimeType in
  let newRecording :=
    {| id := pretty now; url := objectURL; blob := audioBlob;
       timestamp := date; transcription := None |} in
  let s := setRecordings (λ prev, prev ++ [newRecording]) s in
  let s := setIsProcessing false s in
  transcribeAudio audioBlob mimeType (id newRecording) s.

(** [stopRecording]: the state, and the recorder whose [stop()] was called. *)
Definition stopRecording (s : Session) : Session * option MediaRecorder :=
  match mediaRecorderRef s with
  | Some recorder =>
      if isRecording s then (setIsRecording false s, Some recorder) else (s, None)
  | None => (s, None)
  end.

Definition handleMicClick (dev : Device) (s : Session)
    : Session * option MediaRecorder :=
  if isRecording s then stopRecording s else (startRecording dev s, None).

(** [startRecording] suspends at [await getUserMedia(...)]: what it does
    before, and what it does once the browser has answered. *)
Definition startRecording_begin (s : Session) : Session :=
  setTranscriptionError None s.

Definition startRecording_resume (dev : Device) (s : Session) : Session :=
  if getUserMedia dev then
    let s := setHasPermission (Some true) s in
    let s := set_audioChunksRef [] s in
    let mimeType :=
      if isTypeSupported dev then "audio/webm;codecs=opus" else "audio/webm" in
    if recorderCreated dev then
      let s := set_mediaRecorderRef (Some {| mimeType := mimeType |}) s in
      setIsRecording true s
    else setHasPermission (Some false) s
  else setHasPermission (Some false) s.

(** [handleMicClick] as far as it runs in the click itself: the state, the
    recorder whose [stop()] was called, and whether a [startRecording] is
    left waiting for the browser. *)
Definition handleMicClick_begin (s : Session)
    : Session * option MediaRecorder * bool :=
  if isRecording s then (stopRecording s, false)
  else (startRecording_begin s, None, true).

Definition togglePlayback (recordingId : string) (playAllowed : bool)
    (s : Session) : Session :=
  match audioRefs s !! recordingId with
  | None => s
  | Some audioElement =>
      if decide (playingId s = Some recordingId) then
        let s := set_audioRefs (<[recordingId := pause audioElement]> (audioRefs s)) s in
        setPlayingId None s
      else
        (* Stop any currently playing audio *)
        let s :=
          match playingId s with
          | Some current =>
              if truthy current then
                match audioRefs s !! current with
                | Some currentAudio =>
                    set_audioRefs (<[current := pause currentAudio]> (audioRefs s)) s
                | None => s
                end
              else s
          | None => s
          end in
        let s :=
          set_audioRefs (<[recordingId := play playAllowed audioElement]> (audioRefs s)) s in
        setPlayingId (Some recordingId) s
  end.

(** [onEnded] of every [<audio>] element. *)
Definition onEnded (s : Session) : Session :=
  setPlayingId None s.

(** The [ref] callback of the [<audio>] element of [recordingId]. *)
Definition audio_ref (recordingId : string) (el : option HTMLAudioElement)
    (s : Session) : Session :=
  match el with
  | Some el => set_audioRefs (<[recordingId := el]> (audioRefs s)) s
  | None => set_audioRefs (delete recordingId (audioRefs s)) s
  end.

(** The [<a>] element that [downloadAudio] creates, clicks and removes
    again; the session is not touched. *)
Record HTMLAnchorElement := {
  href : string;
  download : string;
}.

Definition downloadAudio (recording : AudioRecording) : HTMLAnchorElement :=
  {| href := url recording;
     download := "recording-" +:+ pretty (timestamp recording) +:+ ".webm" |}.

End Recorder.

(** ** The component served by the gateway *)

Module Service.
Import Recorder.

(** The response of the gateway as [fetch] delivers it to the component. *)
Definition delivered (r : Gateway.NextResponse) : Response :=
  {| status := Gateway.status r; body := JsonBody (Gateway.body r) |}.

(** The request that an invocation of [transcribeAudio] sends. *)
Definition request_of (c : Call) : Gateway.NextRequest :=
  {| Gateway.formData := inr (upload c) |}.

(** [fetch("/api/transcribe", { method: "POST", body: formData })] answered
    by [POST] over a working network. *)
Definition fetch_transcribe (transcribe : Bytes → JsError + string)
    (not_a_function : JsError) (c : Call) : FetchResult :=
  FetchResponse
    (delivered (Gateway.POST transcribe not_a_function (request_of c)).2).

End Service.

(** ** The session as a transition system

    Between two suspension points a handler runs to completion on a single
    thread; what interleaves are the clicks of the user and the callbacks
    of the browser.  [startRecording] is suspended at its
    [await getUserMedia], [transcribeAudio] at its [await fetch]; the
    [stop] event of a recorder and the [ended] event of an audio element
    are queued by the browser and delivered later.  Any other event can
    come in between.  A [World] is the component together with what the
    browser still owes it:

    - [starting]: the invocations of [startRecording] that wait at
      [await getUserMedia];
    - [stopping]: the recorders that were told to stop and whose [stop]
      event is still to come;
    - [pending]: the requests of [transcribeAudio] that have not settled;
    - [ended]: the [ended] events that are queued: an element played to
      its end and its [onEnded] has not run yet;
    - [rendered]: how many recordings of the list have their [<audio>]
      element;
    - [orphans]: the [<audio>] elements whose entry in [audioRefs] was
      taken over by the element of a later recording with the same
      identifier; they stay on the page as they are;
    - [failures]: most recent first, the invocations of [transcribeAudio]
      that ended in its [catch] block.

    What is taken for granted about the environment: the component is
    rendered anew before the next event is handled, so that every handler
    reads the state as it is when it runs; a recorder delivers its [stop]
    event only after [stop()] was called on it (its stream stays live
    while it records); the recordings get their [<audio>] elements in the
    order of the list.  On a later render React calls the [ref] callbacks
    of all elements again, first with [null] and then with the element,
    in the order of the list: [audioRefs] is left as it was, the entry of
    an identifier that two recordings share being the element of the
    later one. *)

Module Lifecycle.
Import Recorder.

Record World := {
  component : Session;
  starting : nat;
  stopping : list MediaRecorder;
  pending : list Call;
  ended : nat;
  rendered : nat;
  orphans : list HTMLAudioElement;
  failures : list Call;
}.

Definition mounted : World :=
  {| component := initial; starting := 0; stopping := []; pending := [];
     ended := 0; rendered := 0; orphans := []; failures := [] |}.

Inductive Event :=
| MicClick                               (* the microphone button *)
| MediaAnswered (dev : Device)           (* [getUserMedia] settles for a waiting start *)
| StopClick                              (* the square button *)
| DataAvailable (data : Blob)            (* [dataavailable] of a stopping recorder *)
| RecorderStopped (k : nat) (now date : Z) (objectURL : string)
                                         (* [stop] of the [k]-th stopping recorder *)
| RetryClick                             (* the Retry button of the error banner *)
| Settled (k : nat) (o : FetchResult)    (* the [k]-th pending request settles *)
| PlayClick (recordingId : string) (playAllowed : bool)
| PlayedToEnd (recordingId : string)     (* a registered element plays to its end *)
| OrphanPlayedToEnd (k : nat)            (* the [k]-th orphan plays to its end *)
| Ended                                  (* a queued [ended] event is delivered *)
| AudioMounted (recordingId : string)    (* the next recording gets its [<audio>] *)
| TextInput (text : string).             (* the user edits the text area *)

Definition option_to_list {A} (o : option A) : list A :=
  match o with
  | Some a => [a]
  | None => []
  end.

Definition with_component (s : Session) (w : World) : World :=
  {| component := s; starting := starting w; stopping := stopping w;
     pending := pending w; ended := ended w; rendered := rendered w;
     orphans := orphans w; failures := failures w |}.

Definition with_starting (n : nat) (w : World) : World :=
  {| component := component w; starting := n; stopping := stopping w;
     pending := pending w; ended := ended w; rendered := rendered w;
     orphans := orphans w; failures := failures w |}.

Definition with_stopping (l : list MediaRecorder) (w : World) : World :=
  {| component := component w; starting := starting w; stopping := l;
     pending := pending w; ended := ended w; rendered := rendered w;
     orphans := orphans w; failures := failures w |}.

Definition with_pending (l : list Call) (w : World) : World :=
  {| component := component w; starting := starting w; stopping := stopping w;
     pending := l; ended := ended w; rendered := rendered w;
     orphans := orphans w; failures := failures w |}.

Definition with_ended (n : nat) (w : World) : World :=
  {| component := component w; starting := starting w; stopping := stopping w;
     pending := pending w; ended := n; rendered := rendered w;
     orphans := orphans w; failures := failures w |}.

Definition with_rendered (n : nat) (w : World) : World :=
  {| component := component w; starting := starting w; stopping := stopping w;
     pending := pending w; ended := ended w; rendered := n;
     orphans := orphans w; failures := failures w |}.

Definition with_orphans (l : list HTMLAudioElement) (w : World) : World :=
  {| component := component w; starting := starting w; stopping := stopping w;
     pending := pending w; ended := ended w; rendered := rendered w;
     orphans := l; failures := failures w |}.

Definition with_failures (l : list Call) (w : World) : World :=
  {| component := component w; starting := starting w; stopping := stopping w;
     pending := pending w; ended := ended w; rendered := rendered w;
     orphans := orphans w; failures := l |}.

Definition is_failure (o : FetchResult) : bool :=
  match received o with
  | inl _ => true
  | inr _ => false
  end.

(** One event; [None] when the event cannot happen in that state (the
    button is disabled or not rendered, nothing of that kind is owed). *)
Definition step (e : Event) (w : World) : option World :=
  let s := component w in
  match e with
  | MicClick =>
      if isTranscribing s then None
      else
        let '(s', stopped, waits) := handleMicClick_begin s in
        Some (with_starting (if waits then S (starting w) else starting w)
                (with_stopping (stopping w ++ option_to_list stopped)
                   (with_component s' w)))
  | MediaAnswered dev =>
      match starting w with
      | S n => Some (with_starting n (with_component (startRecording_resume dev s) w))
      | 0%nat => None
      end
  | StopClick =>
      if isRecording s then
        let '(s', stopped) := stopRecording s in
        Some (with_stopping (stopping w ++ option_to_list stopped)
                (with_component s' w))
      else None
  | DataAvailable data =>
      match stopping w with
      | [] => None
      | _ :: _ => Some (with_component (ondataavailable data s) w)
      end
  | RecorderStopped k now date objectURL =>
      match stopping w !! k with
      | Some recorder =>
          let '(s', c) := onstop (mimeType recorder) now date objectURL s in
          Some (with_pending (pending w ++ [c])
                  (with_stopping (delete k (stopping w)) (with_component s' w)))
      | None => None
      end
  | RetryClick =>
      match transcriptionError s with
      | Some shown =>
          if truthy shown then
            let '(s', c) := onRetryClick s in
            Some (with_pending (pending w ++ option_to_list c) (with_component s' w))
          else None
      | None => None
      end
  | Settled k o =>
      match pending w !! k with
      | Some c =>
          Some (with_failures (if is_failure o then c :: failures w else failures w)
                  (with_pending (delete k (pending w))
                     (with_component
                        (transcribeAudio_settle (call_recordingId c) o s) w)))
      | None => None
      end
  | PlayClick recordingId playAllowed =>
      Some (with_component (togglePlayback recordingId playAllowed s) w)
  | PlayedToEnd recordingId =>
      match audioRefs s !! recordingId with
      | Some el =>
          if playing el then
            (* the element falls silent and the task that fires [ended]
               is queued *)
            Some (with_ended (S (ended w))
                    (with_component
                       (set_audioRefs (<[recordingId := pause el]> (audioRefs s)) s) w))
          else None
      | None => None
      end
  | OrphanPlayedToEnd k =>
      match orphans w !! k with
      | Some el =>
          if playing el then
            Some (with_ended (S (ended w))
                    (with_orphans (<[k := pause el]> (orphans w)) w))
          else None
      | None => None
      end
  | Ended =>
      match ended w with
      | S n => Some (with_ended n (with_component (onEnded s) w))
      | 0%nat => None
      end
  | AudioMounted recordingId =>
      match recordings s !! rendered w with
      | Some recording =>
          if decide (id recording = recordingId) then
            (* the [ref] callback takes over the entry of the identifier *)
            Some (with_rendered (S (rendered w))
                    (with_orphans
                       (orphans w ++ option_to_list (audioRefs s !! recordingId))
                       (with_component
                          (audio_ref recordingId (Some {| paused := true |}) s) w)))
          else None
      | None => None
      end
  | TextInput text =>
      match textareaRef s with
      | Some _ => Some (with_component (set_textareaRef (Some {| value := text |}) s) w)
      | None => None
      end
  end.

Fixpoint run (es : list Event) (w : World) : option World :=
  match es with
  | [] => Some w
  | e :: es => match step e w with
               | Some w' => run es w'
               | None => None
               end
  end.

(** The worlds a mounted component can be in. *)
Definition reachable (w : World) : Prop :=
  ∃ es, run es mounted = Some w.

(** The values read from [Date.now()] by the [stop] events of a trace. *)
Fixpoint clock_readings (es : list Event) : list Z :=
  match es with
  | [] => []
  | RecorderStopped _ now _ _ :: es => now :: clock_readings es
  | _ :: es => clock_readings es
  end.




(** The recording [r] is playing: the element registered for it is. *)
Definition is_playing (s : Session) (recordingId : string) : bool :=
  match audioRefs s !! recordingId with
  | Some el => playing el
  | None => false
  end.

(** The error banner, and with it the Retry button, is rendered. *)
Definition banner_shown (s : Session) : bool :=
  match transcriptionError s with
  | Some shown => truthy shown
  | None => false
  end.

(** What a recording is made of when its capture ends; only the
    transcription is attached later. *)
Definition captured (r : AudioRecording) : string * string * Blob * Z :=
  (id r, url r, blob r, timestamp r).

(** The two mime types that [startRecording] chooses from. *)
Definition webm_type (ty : string) : Prop :=
  ty = "audio/webm" ∨ ty = "audio/webm;codecs=opus".

(** An invocation of [transcribeAudio] stands for a recording of the list:
    same identifier, same payload, and the mime type of that payload. *)
Definition call_for_recording (s : Session) (c : Call) : Prop :=
  ∃ r, r ∈ recordings s ∧ id r = call_recordingId c ∧
       blob r = call_blob c ∧ type (blob r) = call_mimeType c.

(** What holds of the session between any two events. *)
Definition at_rest (w : World) : Prop :=
  let s := component w in
  isProcessing s = false ∧
  (isRecording s = true → is_Some (mediaRecorderRef s)) ∧
  (is_Some (mediaRecorderRef s) → is_Some (hasPermission s)) ∧
  (∀ r, r ∈ recordings s → webm_type (type (blob r))) ∧
  (∀ recorder, mediaRecorderRef s = Some recorder ∨ recorder ∈ stopping w →
               webm_type (mimeType recorder)) ∧
  (∀ c, c ∈ pending w ++ failures w → call_for_recording s c).

(** Playback refers to what is there: the marker names a registered audio
    element, and every registered element belongs to a recording. *)
Definition playback_refers (s : Session) : Prop :=
  (∀ i, playingId s = Some i → is_Some (audioRefs s !! i)) ∧
  (∀ i, is_Some (audioRefs s !! i) → i ∈ id <$> recordings s).

(** What keeps playback exclusive: an element that is playing is the one
    named by [playingId], and no element is registered under the empty
    string (which [if (playingId)] would take for no marker at all), nor
    does a recording carry it as identifier. *)
Definition playback_inv (s : Session) : Prop :=
  (∀ i el, audioRefs s !! i = Some el → playing el = true → playingId s = Some i) ∧
  (∀ i, is_Some (audioRefs s !! i) → i ≠ "") ∧
  (∀ r, r ∈ recordings s → id r ≠ "").

(** Identifiers are pairwise distinct along the recordings list. *)
Definition distinct_ids (s : Session) : Prop :=
  ∀ i j ri rj,
    recordings s !! i = Some ri → recordings s !! j = Some rj →
    i ≠ j → id ri ≠ id rj.

(** The event is a click on a play button while an [ended] event is still
    queued. *)
Definition untimely (e : Event) (w : World) : bool :=
  match e with
  | PlayClick _ _ => negb (ended w =? 0)%nat
  | _ => false
  end.

(** No event of the trace, run from [w], is untimely: every [ended] event
    is delivered before the next click on a play button. *)
Fixpoint timely (es : list Event) (w : World) : Prop :=
  match es with
  | [] => True
  | e :: es =>
      untimely e w = false ∧
      match step e w with
      | Some w' => timely es w'
      | None => True
      end
  end.

(** What a session with timely [ended] events and distinct identifiers
    keeps: the marker is accurate, no element was ever replaced, nothing
    plays while an [ended] event is queued, and the registered elements
    are those of the recordings rendered so far. *)
Definition exclusive_inv (w : World) : Prop :=
  let s := component w in
  playback_inv s ∧
  orphans w = [] ∧
  (ended w ≠ 0%nat → ∀ i el, audioRefs s !! i = Some el → playing el = false) ∧
  (∀ i, is_Some (audioRefs s !! i) → i ∈ id <$> take (rendered w) (recordings s)).

(** The invocation of [transcribeAudio] that reuses the stored payload of
    [r] and its mime type. *)
Definition call_of (r : AudioRecording) : Call :=
  {| call_blob := blob r; call_mimeType := type (blob r);
     call_recordingId := id r |}.

(** With the banner shown, a click on Retry invokes [transcribeAudio] for
    the recording whose transcription failed most recently. *)
Definition retry_targets_last_failure (w : World) : Prop :=
  banner_shown (component w) = true →
  ∃ c r, head (failures w) = Some c ∧
         r ∈ recordings (component w) ∧ id r = call_recordingId c ∧
         (onRetryClick (component w)).2 = Some (call_of r).

(** The event begins a capture while another [startRecording] waits for
    the microphone, or while a recorder is still to deliver its [stop]
    event. *)
Definition overlaps (e : Event) (w : World) : bool :=
  match e with
  | MicClick =>
      negb (isRecording (component w)) &&
      (negb (starting w =? 0)%nat ||
       match stopping w with [] => false | _ :: _ => true end)
  | _ => false
  end.

(** No event of the trace, run from [w], overlaps. *)
Fixpoint serial (es : list Event) (w : World) : Prop :=
  match es with
  | [] => True
  | e :: es =>
      overlaps e w = false ∧
      match step e w with
      | Some w' => serial es w'
      | None => True
      end
  end.

(** The phases of a session without overlap. *)
Inductive Phase :=
| Idle
| Starting
| Capturing
| Finalizing
| Transcribing.

Definition in_phase (p : Phase) (w : World) : Prop :=
  let s := component w in
  match p with
  | Idle =>
      isRecording s = false ∧ starting w = 0%nat ∧ stopping w = [] ∧
      pending w = [] ∧ isTranscribing s = false ∧
      (is_Some (transcriptionError s) →
         ∃ r, last (recordings s) = Some r ∧ head (failures w) = Some (call_of r))
  | Starting =>
      isRecording s = false ∧ starting w = 1%nat ∧ stopping w = [] ∧
      pending w = [] ∧ isTranscribing s = false ∧ transcriptionError s = None
  | Capturing =>
      isRecording s = true ∧ starting w = 0%nat ∧ stopping w = [] ∧
      pending w = [] ∧ isTranscribing s = false ∧ transcriptionError s = None ∧
      hasPermission s = Some true
  | Finalizing =>
      isRecording s = false ∧ starting w = 0%nat ∧
      (∃ recorder, stopping w = [recorder]) ∧
      pending w = [] ∧ isTranscribing s = false ∧ transcriptionError s = None
  | Transcribing =>
      isRecording s = false ∧ starting w = 0%nat ∧ stopping w = [] ∧
      (∃ r, last (recordings s) = Some r ∧ pending w = [call_of r]) ∧
      isTranscribing s = true ∧ transcriptionError s = None
  end.

(** Every recorder was created with a mime type, and every recording
    carries one. *)
Definition mime_inv (w : World) : Prop :=
  let s := component w in
  (∀ r, r ∈ recordings s → truthy (type (blob r)) = true) ∧
  (∀ recorder, mediaRecorderRef s = Some recorder ∨ recorder ∈ stopping w →
               truthy (mimeType recorder) = true).

Definition serial_inv (w : World) : Prop :=
  mime_inv w ∧
  (isRecording (component w) = true → is_Some (mediaRecorderRef (component w))) ∧
  ∃ p, in_phase p w.

End Lifecycle.
(** ** Sample data, used to run the definitions on concrete inputs *)

Module Samples.
Import Recorder Lifecycle.

(** [n] zero bytes. *)
Definition zeros (n : N) : Bytes :=
  {| byteLength := n; byteAt := λ _, x00 |}.

Definition webm (n : N) : Blob :=
  {| bytes := zeros n; type := "audio/webm" |}.

Definition type_error : JsError :=
  {| message := "audioFile.arrayBuffer is not a function"; stack := "";
     constructor_name := "TypeError" |}.

(** A model that hears silence, one that hears speech, one that is over
    quota. *)
Definition silent_model (audio : Bytes) : JsError + string := inr "".
Definition hello_model (audio : Bytes) : JsError + string := inr "hello world".
Definition limited_model (audio : Bytes) : JsError + string :=
  inl (new_Error "rate limit exceeded").

Definition oversized_request : Gateway.NextRequest :=
  {| Gateway.formData :=
       inr [("audio", Gateway.EntryFile
                        {| name := "recording.webm"; blob_of := webm 26214401 |})] |}.

Definition request_without_audio : Gateway.NextRequest :=
  {| Gateway.formData := inr [("note", Gateway.EntryString "hello")] |}.

Definition memo : Call :=
  {| call_blob := webm 10000; call_mimeType := "audio/webm";
     call_recordingId := "1000" |}.

Definition memo_recording : AudioRecording :=
  {| id := "1000"; url := "blob:memo"; blob := webm 10000; timestamp := 1000;
     transcription := None |}.

Definition other_recording : AudioRecording :=
  {| id := "2000"; url := "blob:other"; blob := webm 4000; timestamp := 2000;
     transcription := None |}.

(** A session with two recordings whose request for the first is pending. *)
Definition two_recordings : Session :=
  (transcribeAudio (webm 10000) "audio/webm" "1000"
     (setRecordings (λ _, [memo_recording; other_recording]) initial)).1.

Definition microphone : Device :=
  {| getUserMedia := true; isTypeSupported := true; recorderCreated := true |}.

(** The user refuses the microphone. *)
Definition no_microphone : Device :=
  {| getUserMedia := false; isTypeSupported := true; recorderCreated := true |}.

Definition success_with (t : string) : FetchResult :=
  FetchResponse {| status := 200;
                   body := JsonBody (JObj [("text", JStr t); ("success", JBool true)]) |}.

Definition network_down : FetchResult :=
  FetchFailed {| message := "Failed to fetch"; stack := "";
                 constructor_name := "TypeError" |}.

(** The clock is set back between two recordings. *)
Definition clock_set_back : list Event :=
  [MicClick; MediaAnswered microphone; StopClick;
   RecorderStopped 0 1000 1000 "blob:a"; Settled 0 (success_with "one");
   MicClick; MediaAnswered microphone; StopClick;
   RecorderStopped 0 1000 1000 "blob:b"].

(** A second capture is started (a double click on the microphone) before
    the [stop] event of the first recorder arrives; the request for the
    first recording then fails while the one for the second succeeds. *)
Definition overlapping_captures : list Event :=
  [MicClick; MediaAnswered microphone; StopClick;
   MicClick; MediaAnswered microphone;
   RecorderStopped 0 1000 1000 "blob:a";
   StopClick; RecorderStopped 0 2000 2000 "blob:b";
   Settled 0 network_down; Settled 0 (success_with "two")].

(** Two recordings are made, the first is played, then the second. *)
Definition switching_playback : list Event :=
  [MicClick; MediaAnswered microphone; StopClick;
   RecorderStopped 0 1000 1000 "blob:a";
   Settled 0 (success_with "one"); AudioMounted "1000";
   MicClick; MediaAnswered microphone; StopClick;
   RecorderStopped 0 2000 2000 "blob:b";
   Settled 0 (success_with "two"); AudioMounted "2000";
   PlayClick "1000" true; PlayClick "2000" true].

Definition after_switch : World :=
  default mounted (run switching_playback mounted).

(** One capture whose transcription fails. *)
Definition failed_once : list Event :=
  [MicClick; MediaAnswered microphone; StopClick; DataAvailable (webm 4000);
   DataAvailable (webm 6000); RecorderStopped 0 1000 1000 "blob:a";
   Settled 0 network_down].

Definition after_failure : World :=
  default mounted (run failed_once mounted).

(** A file of exactly 25 MiB. *)
Definition request_at_limit : Gateway.NextRequest :=
  {| Gateway.formData :=
       inr [("audio", Gateway.EntryFile
                        {| name := "recording.webm"; blob_of := webm 26214400 |})] |}.

(** The [audio] entry is a text field. *)
Definition request_with_text : Gateway.NextRequest :=
  {| Gateway.formData := inr [("audio", Gateway.EntryString "hello")] |}.

(** An invocation for a payload above the limit. *)
Definition long_memo : Call :=
  {| call_blob := webm 26214401; call_mimeType := "audio/webm";
     call_recordingId := "1000" |}.

(** The capture is stopped and the recorder has still to deliver. *)
Definition after_stop : World :=
  default mounted (run [MicClick; MediaAnswered microphone; StopClick] mounted).

(** The failed transcription is retried, with success. *)
Definition retry_succeeds : list Event :=
  [RetryClick; Settled 0 (success_with "one")].

Definition after_retry : World :=
  default mounted (run retry_succeeds after_failure).

(** Two recordings are mounted and the first is played. *)
Definition first_playing : World :=
  default mounted (run [PlayClick "1000" true] after_switch).



(** Two starts wait for the microphone at the same time: the first is
    granted and its capture ends while the second still waits; the second
    is then granted too.  The request for the first recording fails, the
    one for the second succeeds. *)
Definition two_starts_waiting : list Event :=
  [MicClick; MicClick; MediaAnswered microphone; StopClick;
   RecorderStopped 0 1000 1000 "blob:a"; MediaAnswered microphone;
   StopClick; RecorderStopped 0 2000 2000 "blob:b";
   Settled 0 network_down; Settled 0 (success_with "two")].

End Samples.
(** * Properties *)

Import Recorder Lifecycle.

(** ** The gateway *)

Lemma FormData_get_absent (key : string) (fd : Gateway.FormData) :
  key ∉ fd.*1 → Gateway.FormData_get key fd = None.
Proof.
  induction fd as [|[k v] fd IH]; simpl; [done|].
  intros Hnot. apply not_elem_of_cons in Hnot as [Hne Hrest].
  case_decide; [congruence | auto].
Qed.

(** C3.  An uploaded audio file of more than 25 MiB (25 * 1024 * 1024
    bytes) is answered with the too-large error, and no call is made to
    the external model while the request is handled. *)
Theorem oversized_upload_is_rejected
    (transcribe : Bytes → JsError + string) (not_a_function : JsError)
    (request : Gateway.NextRequest) (fd : Gateway.FormData) (audio : File) :
  Gateway.formData request = inr fd →
  Gateway.FormData_get "audio" fd = Some (Gateway.EntryFile audio) →
  (25 * 1024 * 1024 < size (blob_of audio))%N →
  (Gateway.POST transcribe not_a_function request).1 = [] ∧
  Gateway.PayloadTooLarge (Gateway.POST transcribe not_a_function request).2.
Proof.
  intros Hfd Hget Hsize. unfold Gateway.POST. rewrite Hfd, Hget.
  change (25 * 1024 * 1024)%N with Gateway.size_limit in Hsize.
  apply N.ltb_lt in Hsize. rewrite Hsize. by repeat split.
Qed.

Lemma oversized_upload_is_rejected_witness :
  (Gateway.POST Samples.silent_model Samples.type_error Samples.oversized_request).1 = [] ∧
  Gateway.PayloadTooLarge
    (Gateway.POST Samples.silent_model Samples.type_error Samples.oversized_request).2.
Proof.
  apply (oversized_upload_is_rejected Samples.silent_model Samples.type_error
           Samples.oversized_request _ _ eq_refl eq_refl).
  vm_compute. reflexivity.
Defined.

(** C6.  An upload whose form data has no entry named [audio] is answered
    with status 400, a client error, and no call is made to the external
    model while the request is handled. *)
Theorem upload_without_audio_is_refused
    (transcribe : Bytes → JsError + string) (not_a_function : JsError)
    (request : Gateway.NextRequest) (fd : Gateway.FormData) :
  Gateway.formData request = inr fd →
  "audio" ∉ fd.*1 →
  (Gateway.POST transcribe not_a_function request).1 = [] ∧
  Gateway.status (Gateway.POST transcribe not_a_function request).2 = 400 ∧
  Gateway.client_error (Gateway.POST transcribe not_a_function request).2.
Proof.
  intros Hfd Habsent. unfold Gateway.POST.
  rewrite Hfd, (FormData_get_absent _ _ Habsent).
  unfold Gateway.client_error. simpl. repeat split; lia.
Qed.

Lemma upload_without_audio_is_refused_witness :
  (Gateway.POST Samples.hello_model Samples.type_error Samples.request_without_audio).1 = [] ∧
  Gateway.status
    (Gateway.POST Samples.hello_model Samples.type_error Samples.request_without_audio).2 = 400 ∧
  Gateway.client_error
    (Gateway.POST Samples.hello_model Samples.type_error Samples.request_without_audio).2.
Proof.
  apply (upload_without_audio_is_refused Samples.hello_model Samples.type_error
           Samples.request_without_audio _ eq_refl).
  simpl. rewrite list_elem_of_singleton. discriminate.
Defined.

(** A body that is not form data, or an [audio] entry that is a string,
    never reaches the external model either. *)
Lemma model_called_only_with_a_file
    (transcribe : Bytes → JsError + string) (not_a_function : JsError)
    (request : Gateway.NextRequest) (audio : Bytes) :
  audio ∈ (Gateway.POST transcribe not_a_function request).1 →
  ∃ fd f, Gateway.formData request = inr fd ∧
          Gateway.FormData_get "audio" fd = Some (Gateway.EntryFile f) ∧
          audio = bytes (blob_of f) ∧
          (size (blob_of f) ≤ 25 * 1024 * 1024)%N.
Proof.
  unfold Gateway.POST.
  destruct (Gateway.formData request) as [e|fd]; simpl; [by intros ?%elem_of_nil|].
  destruct (Gateway.FormData_get "audio" fd) as [[f|[|c s]]|] eqn:Hget; simpl;
    try by intros ?%elem_of_nil.
  destruct (Gateway.size_limit <? size (blob_of f))%N eqn:Hsz; simpl;
    [by intros ?%elem_of_nil|].
  apply N.ltb_ge in Hsz.
  destruct (transcribe (bytes (blob_of f))); simpl;
    intros ->%list_elem_of_singleton; exists fd, f; done.
Qed.

(** ** Settling a transcription *)

Lemma size_audioFile (c : Call) : size (blob_of (audioFile c)) = size (call_blob c).
Proof. unfold size. simpl. lia. Qed.

(** What the gateway answers when the external model returns [text]. *)
Lemma POST_success (transcribe : Bytes → JsError + string)
    (not_a_function : JsError) (c : Call) (text : string) :
  (size (call_blob c) ≤ 25 * 1024 * 1024)%N →
  transcribe (bytes (blob_of (audioFile c))) = inr text →
  ∃ debug,
    Gateway.POST transcribe not_a_function (Service.request_of c)
    = ([bytes (blob_of (audioFile c))],
       Gateway.NextResponse_json
         (JObj [("text", JStr text); ("success", JBool true); ("debug", debug)]) 200).
Proof.
  intros Hsize Hmodel. unfold Gateway.POST, Service.request_of, upload.
  cbn [Gateway.formData Gateway.FormData_get]. rewrite decide_True by done.
  rewrite size_audioFile.
  change Gateway.size_limit with (25 * 1024 * 1024)%N.
  apply N.ltb_ge in Hsize. rewrite Hsize, Hmodel. eauto.
Qed.

Lemma received_text (st : Z) (fields : list (string * Json)) (t : string) :
  200 ≤ st ≤ 299 →
  get_property "text" fields = Some (JStr t) →
  received (FetchResponse {| status := st; body := JsonBody (JObj fields) |})
  = if truthy t then inr (JStr t)
    else inl (new_Error "No transcription text received").
Proof.
  intros Hst Hget. unfold received, ok. cbn [status body json result_text].
  replace (200 <=? st) with true by (symmetry; apply Z.leb_le; lia).
  replace (st <=? 299) with true by (symmetry; apply Z.leb_le; lia).
  cbn [negb andb]. rewrite Hget. done.
Qed.

Lemma truthy_nonempty (t : string) : t ≠ "" → truthy t = true.
Proof. by destruct t. Qed.

(** The counterexample to C1: the model hears silence, the gateway answers
    200 with the empty text, and the component reports a failure. *)
Lemma silence_is_reported_as_failure :
  Gateway.status
    (Gateway.POST Samples.silent_model Samples.type_error
       (Service.request_of Samples.memo)).2 = 200 ∧
  Gateway.error_of
    (Gateway.POST Samples.silent_model Samples.type_error
       (Service.request_of Samples.memo)).2 = None ∧
  transcriptionError
    (transcribeAudio_settle "1000"
       (Service.fetch_transcribe Samples.silent_model Samples.type_error Samples.memo)
       (transcribeAudio (call_blob Samples.memo) "audio/webm" "1000" initial).1)
  = Some "No transcription text received".
Proof. vm_compute. done. Qed.

(** C1, amended.  When the call succeeds at the service boundary the
    gateway answers 200 with the model's text verbatim, also when it is
    empty.  The component accepts a non-empty text (the last error is left
    as it was, unset by the start of the call, and nothing is reported);
    an empty text it reports as the failure
    [No transcription text received]. *)
Theorem silence_reaches_the_component_as_failure
    (transcribe : Bytes → JsError + string) (not_a_function : JsError)
    (c : Call) (text : string) (s : Session) :
  (size (call_blob c) ≤ 25 * 1024 * 1024)%N →
  transcribe (bytes (blob_of (audioFile c))) = inr text →
  let answer := (Gateway.POST transcribe not_a_function (Service.request_of c)).2 in
  let o := Service.fetch_transcribe transcribe not_a_function c in
  let s' := transcribeAudio_settle (call_recordingId c) o s in
  Gateway.status answer = 200 ∧
  (∃ fields, Gateway.body answer = JObj fields ∧
             get_property "text" fields = Some (JStr text)) ∧
  (text ≠ "" →
     is_failure o = false ∧ transcriptionError s' = transcriptionError s) ∧
  (text = "" →
     is_failure o = true ∧
     transcriptionError s' = Some "No transcription text received").
Proof.
  intros Hsize Hmodel answer o s'.
  destruct (POST_success transcribe not_a_function c text Hsize Hmodel) as [debug HPOST].
  assert (Hrecv : received o = if truthy text then inr (JStr text)
                               else inl (new_Error "No transcription text received")).
  { subst o. unfold Service.fetch_transcribe, Service.delivered.
    rewrite HPOST. cbn [snd Gateway.status Gateway.body Gateway.NextResponse_json].
    apply received_text; [lia|]. reflexivity. }
  subst answer. rewrite HPOST. cbn [snd Gateway.status Gateway.body Gateway.NextResponse_json].
  split; [done|]. split.
  { eexists. split; reflexivity. }
  subst s'. unfold is_failure, transcribeAudio_settle. rewrite Hrecv. split.
  - intros Hne. rewrite (truthy_nonempty _ Hne). split; [done|].
    cbn. by destruct (textareaRef s).
  - intros ->. done.
Qed.

Lemma silence_reaches_the_component_as_failure_witness :
  is_failure (Service.fetch_transcribe Samples.hello_model Samples.type_error Samples.memo) = false.
Proof.
  refine (proj1 (proj1 (proj2 (proj2
    (silence_reaches_the_component_as_failure Samples.hello_model Samples.type_error
       Samples.memo "hello world" initial _ eq_refl))) _)).
  - vm_compute. discriminate.
  - discriminate.
Defined.

(** C4.  When an invocation of [transcribeAudio] fails, the last error
    becomes the message of the failure, the recordings, and so the
    transcription of the targeted one, are left as they were, and the
    transcribing flag is false afterwards; the flag is false after every
    settled call, whatever its outcome. *)
Theorem failed_transcription_is_reported
    (recordingId : string) (o : FetchResult) (s : Session) (error : JsError) :
  received o = inl error →
  let s' := transcribeAudio_settle recordingId o s in
  transcriptionError s' = Some (message error) ∧
  recordings s' = recordings s ∧
  (∀ i r, recordings s !! i = Some r → transcription r = None →
          ∃ r', recordings s' !! i = Some r' ∧ transcription r' = None) ∧
  isTranscribing s' = false ∧
  (∀ o0 s0, isTranscribing (transcribeAudio_settle recordingId o0 s0) = false).
Proof.
  intros Hfail s'. subst s'. unfold transcribeAudio_settle. rewrite Hfail.
  cbn. repeat split; eauto.
Qed.

Lemma failed_transcription_is_reported_witness :
  transcriptionError
    (transcribeAudio_settle "1000" Samples.network_down Samples.two_recordings)
  = Some "Failed to fetch".
Proof.
  exact (proj1 (failed_transcription_is_reported "1000" Samples.network_down
                  Samples.two_recordings _ eq_refl)).
Defined.

(** C5.  After a successful transcription with returned text [t], the
    draft text buffer holds [t] if it was empty, and otherwise its
    previous content, a single space, and [t]. *)
Theorem transcription_is_appended_to_draft
    (recordingId : string) (o : FetchResult) (s : Session)
    (textarea : HTMLTextAreaElement) (t : string) :
  received o = inr (JStr t) →
  textareaRef s = Some textarea →
  let s' := transcribeAudio_settle recordingId o s in
  (value textarea = "" → textareaRef s' = Some {| value := t |}) ∧
  (value textarea ≠ "" →
     textareaRef s' = Some {| value := value textarea +:+ " " +:+ t |}).
Proof.
  intros Hok Href s'. subst s'. unfold transcribeAudio_settle.
  rewrite Hok. cbn. rewrite Href. cbn. split.
  - intros ->. done.
  - intros Hne. by rewrite (truthy_nonempty _ Hne).
Qed.

Lemma transcription_is_appended_to_draft_witness :
  textareaRef
    (transcribeAudio_settle "1000" (Samples.success_with "foo")
       (set_textareaRef (Some {| value := "hello world" |}) Samples.two_recordings))
  = Some {| value := "hello world foo" |}.
Proof.
  refine (proj2 (transcription_is_appended_to_draft "1000" (Samples.success_with "foo")
                   (set_textareaRef (Some {| value := "hello world" |}) Samples.two_recordings)
                   {| value := "hello world" |} "foo" eq_refl eq_refl) _).
  discriminate.
Defined.

(** C9.  A successful transcription for the recording identifier
    [recordingId] changes, in the recordings list, only the transcription
    of the recordings with that identifier: the list keeps its length and
    its order, every recording with another identifier is unchanged, and a
    recording with that identifier keeps its id, url, blob and timestamp. *)
Theorem transcription_updates_only_its_recording
    (recordingId : string) (o : FetchResult) (s : Session) (t : Json) :
  received o = inr t →
  let s' := transcribeAudio_settle recordingId o s in
  length (recordings s') = length (recordings s) ∧
  id <$> recordings s' = id <$> recordings s ∧
  (∀ i r, recordings s !! i = Some r → id r ≠ recordingId →
          recordings s' !! i = Some r) ∧
  (∀ i r, recordings s !! i = Some r → id r = recordingId →
          ∃ r', recordings s' !! i = Some r' ∧
                id r' = id r ∧ url r' = url r ∧ blob r' = blob r ∧
                timestamp r' = timestamp r ∧ transcription r' = Some t).
Proof.
  intros Hok s'.
  assert (Hrec : recordings s'
                 = (λ recording, if decide (id recording = recordingId)
                                 then with_transcription t recording
                                 else recording) <$> recordings s).
  { subst s'. unfold transcribeAudio_settle. rewrite Hok. cbn.
    by destruct (textareaRef s). }
  rewrite Hrec. split; [by rewrite length_fmap|]. split.
  { rewrite <- list_fmap_compose. apply list_fmap_ext.
    intros i r _. simpl. by case_decide. }
  split.
  - intros i r Hi Hne. rewrite list_lookup_fmap, Hi. simpl.
    by rewrite decide_False.
  - intros i r Hi Heq. rewrite list_lookup_fmap, Hi. simpl.
    rewrite decide_True by done. eexists. split; [done|]. done.
Qed.

Lemma transcription_updates_only_its_recording_witness :
  recordings (transcribeAudio_settle "1000" (Samples.success_with "foo")
                Samples.two_recordings) !! 1%nat
  = Some Samples.other_recording.
Proof.
  refine (proj1 (proj2 (proj2
    (transcription_updates_only_its_recording "1000" (Samples.success_with "foo")
       Samples.two_recordings (JStr "foo") eq_refl)))
    1%nat Samples.other_recording eq_refl _).
  discriminate.
Defined.

(** ** Playback *)

(** C10.  [togglePlayback] with an identifier for which no audio element
    is registered changes nothing: the currently-playing marker and the
    rest of the session are as before. *)
Theorem togglePlayback_unregistered_is_noop
    (recordingId : string) (playAllowed : bool) (s : Session) :
  audioRefs s !! recordingId = None →
  togglePlayback recordingId playAllowed s = s.
Proof. intros Hnone. unfold togglePlayback. by rewrite Hnone. Qed.

Lemma togglePlayback_unregistered_is_noop_witness :
  togglePlayback "1000" true Samples.two_recordings = Samples.two_recordings.
Proof.
  apply (togglePlayback_unregistered_is_noop "1000" true Samples.two_recordings).
  reflexivity.
Defined.


(** *** Identifiers are never empty *)

Lemma pretty_N_go_length (x : N) (s : string) :
  (String.length s ≤ String.length (pretty_N_go x s))%nat.
Proof.
  revert s. induction (N.lt_wf_0 x) as [x _ IH]; intros s.
  destruct (decide (x = 0)%N) as [->|Hx]; [by rewrite pretty_N_go_0|].
  rewrite pretty_N_go_step by lia.
  etrans; [|apply IH, N.div_lt; lia]. simpl. lia.
Qed.

Lemma pretty_N_nonempty (x : N) : pretty x ≠ "".
Proof.
  unfold pretty, pretty_N. case_decide as Hx; [done|].
  rewrite pretty_N_go_step by lia. intros Hempty.
  pose proof (pretty_N_go_length (x `div` 10)
                (String (pretty_N_char (x `mod` 10)) "")) as Hlen.
  rewrite Hempty in Hlen. simpl in Hlen. lia.
Qed.

Lemma pretty_Z_nonempty (z : Z) : pretty z ≠ "".
Proof.
  destruct z as [|p|p]; [done| |done].
  apply (pretty_N_nonempty (Npos p)).
Qed.

(** *** The playback invariant *)

(** Starting playback: whatever was playing is paused first. *)
Lemma togglePlayback_start (recordingId : string) (playAllowed : bool)
    (s : Session) (el : HTMLAudioElement) :
  playback_inv s →
  audioRefs s !! recordingId = Some el →
  playingId s ≠ Some recordingId →
  ∃ refs,
    audioRefs (togglePlayback recordingId playAllowed s)
    = <[recordingId := play playAllowed el]> refs ∧
    (∀ i eli, refs !! i = Some eli → playing eli = false) ∧
    (∀ i, is_Some (refs !! i) → is_Some (audioRefs s !! i)) ∧
    playingId (togglePlayback recordingId playAllowed s) = Some recordingId ∧
    recordings (togglePlayback recordingId playAllowed s) = recordings s.
Proof.
  intros (Hplay & Hkeys & _) Hel Hcur. unfold togglePlayback.
  rewrite Hel, decide_False by done.
  match goal with
  | |- context [set_audioRefs _ ?x] => set (s1 := x)
  end.
  exists (audioRefs s1). split; [done|]. split; [|split; [|split; [done|]]].
  - intros i eli Hi. destruct (playing eli) eqn:Hp; [exfalso|done].
    subst s1. destruct (playingId s) as [cur|] eqn:Hcurrent.
    + destruct (truthy cur) eqn:Htruthy.
      * destruct (audioRefs s !! cur) as [curAudio|] eqn:HcurAudio.
        -- cbn in Hi. destruct (decide (cur = i)) as [->|Hd].
           ++ rewrite lookup_insert_eq in Hi. by simplify_eq.
           ++ rewrite lookup_insert_ne in Hi by done.
              pose proof (Hplay _ _ Hi Hp). congruence.
        -- pose proof (Hplay _ _ Hi Hp). congruence.
      * pose proof (Hplay _ _ Hi Hp). simplify_eq.
        destruct i; [|done]. apply (Hkeys ""); eauto.
    + pose proof (Hplay _ _ Hi Hp). congruence.
  - intros i Hi. subst s1. destruct (playingId s) as [cur|]; [|done].
    destruct (truthy cur); [|done].
    destruct (audioRefs s !! cur) as [curAudio|] eqn:HcurAudio; [|done].
    cbn in Hi. destruct (decide (cur = i)) as [->|Hd]; [eauto|].
    by rewrite lookup_insert_ne in Hi.
  - subst s1. destruct (playingId s) as [cur|]; [|done].
    destruct (truthy cur); [|done].
    by destruct (audioRefs s !! cur).
Qed.

(** Pausing the recording that plays. *)
Lemma togglePlayback_pause (recordingId : string) (playAllowed : bool)
    (s : Session) (el : HTMLAudioElement) :
  audioRefs s !! recordingId = Some el →
  playingId s = Some recordingId →
  togglePlayback recordingId playAllowed s
  = setPlayingId None (set_audioRefs (<[recordingId := pause el]> (audioRefs s)) s).
Proof.
  intros Hel Hcur. unfold togglePlayback. by rewrite Hel, decide_True.
Qed.

Lemma togglePlayback_inv (recordingId : string) (playAllowed : bool) (s : Session) :
  playback_inv s → playback_inv (togglePlayback recordingId playAllowed s).
Proof.
  intros Hinv. pose proof Hinv as (Hplay & Hkeys & Hids).
  destruct (audioRefs s !! recordingId) as [el|] eqn:Hel;
    [|unfold togglePlayback; by rewrite Hel].
  destruct (decide (playingId s = Some recordingId)) as [Hcur|Hcur].
  - rewrite (togglePlayback_pause _ _ _ el) by done. repeat split; cbn; [| |done].
    + intros i eli Hi Hp. destruct (decide (recordingId = i)) as [->|Hd].
      * rewrite lookup_insert_eq in Hi. by simplify_eq.
      * rewrite lookup_insert_ne in Hi by done.
        pose proof (Hplay _ _ Hi Hp). congruence.
    + intros i Hi. apply Hkeys.
      destruct (decide (recordingId = i)) as [->|Hd]; [eauto|].
      by rewrite lookup_insert_ne in Hi.
  - destruct (togglePlayback_start recordingId playAllowed s el Hinv Hel Hcur)
      as (refs & Hrefs & Hquiet & Hsame & Hmark & Hrecs).
    repeat split.
    + rewrite Hrefs, Hmark. intros i eli Hi Hp.
      destruct (decide (recordingId = i)) as [->|Hd]; [done|].
      rewrite lookup_insert_ne in Hi by done.
      rewrite (Hquiet _ _ Hi) in Hp. done.
    + rewrite Hrefs. intros i Hi.
      destruct (decide (recordingId = i)) as [->|Hd]; [apply Hkeys; eauto|].
      rewrite lookup_insert_ne in Hi by done. apply Hkeys, Hsame, Hi.
    + rewrite Hrecs. done.
Qed.

Lemma settle_ids (recordingId : string) (o : FetchResult) (s : Session) :
  id <$> recordings (transcribeAudio_settle recordingId o s) = id <$> recordings s.
Proof.
  unfold transcribeAudio_settle. destruct (received o) as [e|t]; cbn; [done|].
  destruct (textareaRef s); cbn; rewrite <- list_fmap_compose;
    apply list_fmap_ext; intros i r _; simpl; by case_decide.
Qed.

Lemma ids_nonempty_fmap (l l' : list AudioRecording) :
  id <$> l' = id <$> l →
  (∀ r, r ∈ l → id r ≠ "") → (∀ r, r ∈ l' → id r ≠ "").
Proof.
  intros Hids Hl r Hr.
  assert (id r ∈ id <$> l) as (r0 & -> & Hr0)%list_elem_of_fmap.
  { rewrite <- Hids. by apply list_elem_of_fmap_2. }
  by apply Hl.
Qed.


(** What settling a request leaves alone. *)
Lemma settle_frame (recordingId : string) (o : FetchResult) (s : Session) :
  let s' := transcribeAudio_settle recordingId o s in
  audioRefs s' = audioRefs s ∧ playingId s' = playingId s ∧
  isRecording s' = isRecording s ∧ isProcessing s' = isProcessing s ∧
  mediaRecorderRef s' = mediaRecorderRef s ∧
  hasPermission s' = hasPermission s ∧
  audioChunksRef s' = audioChunksRef s.
Proof.
  cbn. unfold transcribeAudio_settle. destruct (received o); cbn; [done|].
  by destruct (textareaRef s).
Qed.

(** [togglePlayback] registers nothing and removes nothing. *)
Lemma togglePlayback_registered (recordingId : string) (playAllowed : bool)
    (s : Session) (i : string) :
  is_Some (audioRefs (togglePlayback recordingId playAllowed s) !! i)
  ↔ is_Some (audioRefs s !! i).
Proof.
  unfold togglePlayback.
  destruct (audioRefs s !! recordingId) as [el|] eqn:Hel; [|done].
  assert (Hins : ∀ (m : gmap string HTMLAudioElement) j x,
            is_Some (m !! j) → (is_Some (<[j := x]> m !! i) ↔ is_Some (m !! i))).
  { intros m j x Hj. destruct (decide (j = i)) as [->|Hne].
    - rewrite lookup_insert_eq. split; eauto.
    - by rewrite lookup_insert_ne. }
  case_decide; cbn; [apply Hins; eauto|].
  destruct (playingId s) as [cur|]; [|apply Hins; eauto].
  destruct (truthy cur); [|apply Hins; eauto].
  destruct (audioRefs s !! cur) as [curAudio|] eqn:Hcur; cbn; [|apply Hins; eauto].
  rewrite Hins.
  - apply Hins. eauto.
  - destruct (decide (cur = recordingId)) as [->|Hne].
    + rewrite lookup_insert_eq. eauto.
    + rewrite lookup_insert_ne by done. eauto.
Qed.

Lemma togglePlayback_recordings (recordingId : string) (playAllowed : bool)
    (s : Session) :
  recordings (togglePlayback recordingId playAllowed s) = recordings s.
Proof. unfold togglePlayback. by repeat case_match. Qed.

Lemma distinct_ids_NoDup (s : Session) :
  distinct_ids s → NoDup (id <$> recordings s).
Proof.
  intros Hdistinct. apply NoDup_alt. intros i j x Hi Hj.
  apply list_lookup_fmap_Some in Hi as (ri & -> & Hi).
  apply list_lookup_fmap_Some in Hj as (rj & Heq & Hj).
  destruct (decide (i = j)) as [|Hne]; [done|].
  by destruct (Hdistinct i j ri rj Hi Hj Hne).
Qed.

Lemma mounted_exclusive_inv : exclusive_inv mounted.
Proof.
  split; [|split; [done|split]]; cbn.
  - repeat split; cbn.
    + intros i el Hi. by rewrite lookup_empty in Hi.
    + intros i [el Hi]. by rewrite lookup_empty in Hi.
    + intros r Hr. by apply elem_of_nil in Hr.
  - intros _ i el Hi. by rewrite lookup_empty in Hi.
  - intros i [el Hi]. by rewrite lookup_empty in Hi.
Qed.

(** An event that leaves the playback alone keeps what holds of it. *)
Lemma exclusive_inv_frame (w w' : World) :
  audioRefs (component w') = audioRefs (component w) →
  playingId (component w') = playingId (component w) →
  id <$> recordings (component w') = id <$> recordings (component w) →
  orphans w' = orphans w → ended w' = ended w → rendered w' = rendered w →
  exclusive_inv w → exclusive_inv w'.
Proof.
  intros Hrefs Hmark Hids Horph Hended Hrendered ((Hplay & Hkeys & Hne) & Ho & Hq & Hr).
  unfold exclusive_inv, playback_inv.
  rewrite Hrefs, Hmark, Horph, Hended, Hrendered, fmap_take, Hids, <- fmap_take.
  repeat split; try done.
  by eapply ids_nonempty_fmap.
Qed.

Lemma step_exclusive_inv (e : Event) (w w' : World) :
  step e w = Some w' → untimely e w = false →
  NoDup (id <$> recordings (component w')) →
  exclusive_inv w → exclusive_inv w'.
Proof.
  intros Hstep Htimely Hnodup Hinv.
  pose proof Hinv as ((Hplay & Hkeys & Hne) & Horph & Hquiet & Hrendered).
  destruct e; unfold step in Hstep.
  - (* MicClick *)
    destruct (isTranscribing (component w)); [done|].
    unfold handleMicClick_begin, stopRecording, startRecording_begin in Hstep.
    repeat case_match; simplify_eq; by apply (exclusive_inv_frame w).
  - (* MediaAnswered *)
    destruct (starting w); [done|]. simplify_eq.
    apply (exclusive_inv_frame w); try done;
      unfold startRecording_resume; cbn; by repeat case_match.
  - (* StopClick *)
    unfold stopRecording in Hstep.
    repeat case_match; simplify_eq; by apply (exclusive_inv_frame w).
  - (* DataAvailable *)
    destruct (stopping w); [done|]. simplify_eq.
    apply (exclusive_inv_frame w); try done;
      unfold ondataavailable; cbn; by case_match.
  - (* RecorderStopped *)
    destruct (stopping w !! k); [|done]. cbn in Hstep. simplify_eq.
    split; [|split; [done|split; [done|]]]; cbn.
    + repeat split; cbn; [done..|].
      intros r [Hr| ->%list_elem_of_singleton]%elem_of_app; [by apply Hne|].
      apply pretty_Z_nonempty.
    + intros i Hi. specialize (Hrendered i Hi).
      rewrite take_app, fmap_app. apply elem_of_app. by left.
  - (* RetryClick *)
    destruct (transcriptionError (component w)) as [shown|]; [|done].
    destruct (truthy shown); [|done]. unfold onRetryClick in Hstep.
    destruct (last (recordings (component w))); cbn in Hstep; simplify_eq;
      by apply (exclusive_inv_frame w).
  - (* Settled *)
    destruct (pending w !! k) as [c|]; [|done]. simplify_eq.
    destruct (settle_frame (call_recordingId c) o (component w)) as (? & ? & _).
    apply (exclusive_inv_frame w); try done. apply settle_ids.
  - (* PlayClick *)
    simplify_eq. cbn in Htimely. apply negb_false_iff, Nat.eqb_eq in Htimely.
    split; [by apply togglePlayback_inv|]. split; [done|]. split; [done|].
    cbn. intros i Hi. rewrite togglePlayback_recordings.
    apply Hrendered. by apply togglePlayback_registered in Hi.
  - (* PlayedToEnd *)
    destruct (audioRefs (component w) !! recordingId) as [el|] eqn:Hel; [|done].
    destruct (playing el) eqn:Hp; [|done]. simplify_eq.
    assert (Hsilent : ∀ i eli,
              <[recordingId := pause el]> (audioRefs (component w)) !! i = Some eli →
              playing eli = false).
    { intros i eli Hi. destruct (decide (recordingId = i)) as [->|Hd].
      - rewrite lookup_insert_eq in Hi. by simplify_eq.
      - rewrite lookup_insert_ne in Hi by done.
        destruct (playing eli) eqn:Hpi; [|done].
        pose proof (Hplay _ _ Hi Hpi). pose proof (Hplay _ _ Hel Hp). congruence. }
    split; [|split; [done|split]]; cbn.
    + repeat split; cbn; [| |done].
      * intros i eli Hi Hpi. by rewrite (Hsilent _ _ Hi) in Hpi.
      * intros i Hi. apply Hkeys.
        destruct (decide (recordingId = i)) as [->|Hd]; [eauto|].
        by rewrite lookup_insert_ne in Hi.
    + intros _. exact Hsilent.
    + intros i Hi. apply Hrendered.
      destruct (decide (recordingId = i)) as [->|Hd]; [eauto|].
      by rewrite lookup_insert_ne in Hi.
  - (* OrphanPlayedToEnd *)
    rewrite Horph in Hstep. by rewrite lookup_nil in Hstep.
  - (* Ended *)
    destruct (ended w) as [|n] eqn:Hended; [done|]. simplify_eq.
    assert (Hsilent : ∀ i el, audioRefs (component w) !! i = Some el →
                              playing el = false) by (by apply Hquiet).
    split; [|split; [done|split]]; cbn.
    + repeat split; cbn; [|done..].
      intros i el Hi Hp. by rewrite (Hsilent _ _ Hi) in Hp.
    + intros _. exact Hsilent.
    + done.
  - (* AudioMounted *)
    destruct (recordings (component w) !! rendered w) as [recording|] eqn:Hrow;
      [|done].
    case_decide as Hid; [|done]. simplify_eq. cbn in Hnodup.
    assert (Hfresh : audioRefs (component w) !! id recording = None).
    { destruct (audioRefs (component w) !! id recording) as [old|] eqn:Hold; [|done].
      exfalso. assert (id recording ∈ id <$> take (rendered w) (recordings (component w)))
        as Hin by (apply Hrendered; eauto).
      rewrite fmap_take in Hin.
      apply list_elem_of_lookup in Hin as [j Hj].
      apply lookup_take_Some in Hj as [Hj Hlt].
      assert ((id <$> recordings (component w)) !! rendered w = Some (id recording))
        as Hk by (by rewrite list_lookup_fmap, Hrow).
      pose proof (NoDup_lookup _ _ _ _ Hnodup Hj Hk). lia. }
    split; [|split; [|split]]; cbn.
    + repeat split; cbn; [| |done].
      * intros i el Hi Hp. destruct (decide (id recording = i)) as [<-|Hd].
        -- rewrite lookup_insert_eq in Hi. by simplify_eq.
        -- rewrite lookup_insert_ne in Hi by done. eauto.
      * intros i Hi. destruct (decide (id recording = i)) as [<-|Hd].
        -- apply Hne. by eapply list_elem_of_lookup_2.
        -- rewrite lookup_insert_ne in Hi by done. by apply Hkeys.
    + by rewrite Hfresh, Horph.
    + intros Hended i el Hi. destruct (decide (id recording = i)) as [<-|Hd].
      * rewrite lookup_insert_eq in Hi. by simplify_eq.
      * rewrite lookup_insert_ne in Hi by done. by eapply Hquiet.
    + intros i Hi. rewrite (take_S_r _ _ recording) by done.
      rewrite fmap_app. apply elem_of_app.
      destruct (decide (id recording = i)) as [<-|Hd].
      * right. by apply list_elem_of_singleton.
      * left. rewrite lookup_insert_ne in Hi by done. by apply Hrendered.
  - (* TextInput *)
    destruct (textareaRef (component w)); [|done]. simplify_eq.
    by apply (exclusive_inv_frame w).
Qed.

(** ** Identifiers *)

Lemma step_ids (e : Event) (w w' : World) :
  step e w = Some w' →
  id <$> recordings (component w')
  = (id <$> recordings (component w)) ++ (pretty <$> clock_readings [e]).
Proof.
  intros Hstep. destruct e; unfold step in Hstep; cbn [clock_readings fmap list_fmap];
    rewrite ?app_nil_r.
  - destruct (isTranscribing (component w)); [done|].
    unfold handleMicClick_begin, stopRecording, startRecording_begin in Hstep.
    repeat case_match; by simplify_eq.
  - destruct (starting w); [done|]. simplify_eq. cbn.
    unfold startRecording_resume. by repeat case_match.
  - unfold stopRecording in Hstep. repeat case_match; by simplify_eq.
  - destruct (stopping w); [done|]. simplify_eq. unfold ondataavailable.
    by case_match.
  - destruct (stopping w !! k); [|done]. cbn in Hstep. simplify_eq. cbn.
    by rewrite fmap_app.
  - destruct (transcriptionError (component w)) as [shown|]; [|done].
    destruct (truthy shown); [|done]. unfold onRetryClick in Hstep.
    destruct (last (recordings (component w))); cbn in Hstep; by simplify_eq.
  - destruct (pending w !! k); [|done]. simplify_eq. cbn [component with_component
      with_failures with_pending]. apply settle_ids.
  - simplify_eq. cbn. by rewrite togglePlayback_recordings.
  - destruct (audioRefs (component w) !! recordingId) as [el|]; [|done].
    destruct (playing el); by simplify_eq.
  - destruct (orphans w !! k) as [el|]; [|done].
    destruct (playing el); by simplify_eq.
  - destruct (ended w); by simplify_eq.
  - destruct (recordings (component w) !! rendered w); [|done].
    case_decide; by simplify_eq.
  - destruct (textareaRef (component w)); by simplify_eq.
Qed.

Lemma clock_readings_cons (e : Event) (es : list Event) :
  clock_readings (e :: es) = clock_readings [e] ++ clock_readings es.
Proof. by destruct e. Qed.

Lemma run_ids (es : list Event) (w w' : World) :
  run es w = Some w' →
  id <$> recordings (component w')
  = (id <$> recordings (component w)) ++ (pretty <$> clock_readings es).
Proof.
  revert w. induction es as [|e es IH]; intros w Hrun; simpl in Hrun.
  - simplify_eq. simpl. symmetry. apply app_nil_r.
  - destruct (step e w) as [w1|] eqn:Hstep; [|done].
    rewrite (IH _ Hrun), (step_ids _ _ _ Hstep), (clock_readings_cons e es).
    by rewrite fmap_app, (assoc_L (++)).
Qed.

Lemma NoDup_distinct_ids (s : Session) :
  NoDup (id <$> recordings s) → distinct_ids s.
Proof.
  intros Hnodup i j ri rj Hi Hj Hij Heq. apply Hij.
  eapply NoDup_lookup; [exact Hnodup|..].
  - by rewrite list_lookup_fmap, Hi.
  - rewrite list_lookup_fmap, Hj. simpl. by rewrite Heq.
Qed.

(** The counterexample to C8: the clock reads the same millisecond at the
    end of two captures, and the two recordings get the same identifier. *)
Lemma identifiers_can_collide :
  ¬ (∀ es w, run es mounted = Some w → distinct_ids (component w)).
Proof.
  intros Hdistinct.
  assert (∃ w, run Samples.clock_set_back mounted = Some w ∧
               id <$> recordings (component w) = ["1000"; "1000"])
    as (w & Hrun & Hids) by (vm_compute; eauto).
  assert ((id <$> recordings (component w)) !! 0%nat = Some "1000")
    as (r0 & Hid0 & Hr0)%list_lookup_fmap_Some by (by rewrite Hids).
  assert ((id <$> recordings (component w)) !! 1%nat = Some "1000")
    as (r1 & Hid1 & Hr1)%list_lookup_fmap_Some by (by rewrite Hids).
  apply (Hdistinct _ _ Hrun 0%nat 1%nat r0 r1); [done..|congruence].
Qed.

(** C8, amended.  The identifiers of the recordings are, in order, the
    decimal representations of the clock readings taken when the captures
    ended; they are pairwise distinct whenever these readings are. *)
Theorem identifiers_follow_the_clock (es : list Event) (w : World) :
  run es mounted = Some w →
  id <$> recordings (component w) = pretty <$> clock_readings es ∧
  (NoDup (clock_readings es) → distinct_ids (component w)).
Proof.
  intros Hrun. pose proof (run_ids _ _ _ Hrun) as Hids. simpl in Hids.
  split; [done|]. intros Hnodup. apply NoDup_distinct_ids.
  rewrite Hids. by apply (NoDup_fmap_2 _).
Qed.

Lemma identifiers_follow_the_clock_witness :
  distinct_ids (component Samples.after_switch).
Proof.
  refine (proj2 (identifiers_follow_the_clock Samples.switching_playback _ _) _).
  - vm_compute. reflexivity.
  - cbn. apply NoDup_cons_2; [|apply NoDup_singleton].
    by intros [=]%list_elem_of_singleton.
Defined.

(** ** One recording at a time *)

Lemma run_exclusive_inv (es : list Event) (w w' : World) :
  run es w = Some w' → timely es w →
  NoDup (id <$> recordings (component w')) →
  exclusive_inv w → exclusive_inv w'.
Proof.
  revert w. induction es as [|e es IH]; intros w Hrun Htimely Hnodup Hinv;
    simpl in Hrun, Htimely.
  - by simplify_eq.
  - destruct Htimely as [Hnow Hlater].
    destruct (step e w) as [w1|] eqn:Hstep; [|done].
    eapply IH; [done..|]. eapply step_exclusive_inv; [done..| |done].
    rewrite (run_ids _ _ _ Hrun) in Hnodup. by apply NoDup_app in Hnodup as [? _].
Qed.







(** ** Retry *)

Ltac open_world w :=
  destruct w as [[isRec perm recs proc pid isTr err mrec chunks refs ta]
                   sg st pe en rd orp fa].

Lemma settle_types (recordingId : string) (o : FetchResult) (s : Session) :
  (∀ r, r ∈ recordings s → truthy (type (blob r)) = true) →
  ∀ r, r ∈ recordings (transcribeAudio_settle recordingId o s) →
       truthy (type (blob r)) = true.
Proof.
  intros Htypes r. unfold transcribeAudio_settle.
  destruct (received o) as [error|t]; cbn; [by apply Htypes|].
  intros Hr.
  assert (r ∈ (λ recording, if decide (id recording = recordingId)
                            then with_transcription t recording
                            else recording) <$> recordings s)
    as (r0 & -> & Hr0)%list_elem_of_fmap
    by (by destruct (textareaRef s)).
  case_decide; cbn; by apply Htypes.
Qed.

Lemma mounted_mime_inv : mime_inv mounted.
Proof.
  split; cbn; [by intros r ?%elem_of_nil|by intros recorder [?|?%elem_of_nil]].
Qed.

Lemma step_mime_inv (e : Event) (w w' : World) :
  step e w = Some w' → mime_inv w → mime_inv w'.
Proof.
  intros Hstep [Htypes Hmimes]. unfold mime_inv.
  destruct e; unfold step in Hstep.
  - (* MicClick *)
    destruct (isTranscribing (component w)); [done|].
    unfold handleMicClick_begin, stopRecording, startRecording_begin in Hstep.
    destruct (isRecording (component w)).
    + destruct (mediaRecorderRef (component w)) as [recorder|] eqn:Href;
        simplify_eq; cbn; (split; [done|]); intros r Hr; apply Hmimes;
        rewrite ?Href, ?elem_of_app, ?list_elem_of_singleton, ?elem_of_nil in Hr;
        intuition congruence.
    + simplify_eq. cbn. rewrite app_nil_r. done.
  - (* MediaAnswered *)
    destruct (starting w); [done|]. simplify_eq. unfold startRecording_resume.
    destruct dev as [[] opus []]; cbn; (split; [done|]); try done.
    intros r [Hr|Hr]; [|apply Hmimes; by right]. simplify_eq. by destruct opus.
  - (* StopClick *)
    unfold stopRecording in Hstep.
    destruct (isRecording (component w)); [|done].
    destruct (mediaRecorderRef (component w)) as [recorder|] eqn:Href;
      simplify_eq; cbn; (split; [done|]); intros r Hr; apply Hmimes;
      rewrite ?Href, ?elem_of_app, ?list_elem_of_singleton, ?elem_of_nil in Hr;
      intuition congruence.
  - (* DataAvailable *)
    destruct (stopping w) eqn:Hst; [done|]. simplify_eq. unfold ondataavailable.
    case_match; cbn; rewrite Hst; done.
  - (* RecorderStopped *)
    destruct (stopping w !! k) as [recorder|] eqn:Hk; [|done].
    cbn in Hstep. simplify_eq. cbn. split.
    + intros r [?| ->%list_elem_of_singleton]%elem_of_app; [by apply Htypes|].
      cbn. apply Hmimes. right. by eapply list_elem_of_lookup_2.
    + intros r [?|Hr]; apply Hmimes; [by left|right].
      by eapply list_elem_of_delete_inv.
  - (* RetryClick *)
    destruct (transcriptionError (component w)) as [shown|]; [|done].
    destruct (truthy shown); [|done]. unfold onRetryClick in Hstep.
    destruct (last (recordings (component w))); cbn in Hstep; by simplify_eq.
  - (* Settled *)
    destruct (pending w !! k); [|done]. simplify_eq. cbn.
    split; [by apply settle_types|].
    unfold transcribeAudio_settle. destruct (received o); cbn; [done|].
    by destruct (textareaRef (component w)).
  - (* PlayClick *)
    simplify_eq. cbn. unfold togglePlayback. by repeat case_match.
  - (* PlayedToEnd *)
    destruct (audioRefs (component w) !! recordingId) as [el|]; [|done].
    destruct (playing el); by simplify_eq.
  - (* OrphanPlayedToEnd *)
    destruct (orphans w !! k) as [el|]; [|done].
    destruct (playing el); by simplify_eq.
  - (* Ended *)
    destruct (ended w); by simplify_eq.
  - (* AudioMounted *)
    destruct (recordings (component w) !! rendered w); [|done].
    case_decide; by simplify_eq.
  - (* TextInput *)
    destruct (textareaRef (component w)); by simplify_eq.
Qed.

Lemma run_mime_inv (es : list Event) (w w' : World) :
  run es w = Some w' → mime_inv w → mime_inv w'.
Proof.
  revert w. induction es as [|e es IH]; intros w Hrun Hinv; simpl in Hrun.
  - by simplify_eq.
  - destruct (step e w) as [w1|] eqn:Hstep; [|done].
    eapply IH; [done|]. by eapply step_mime_inv.
Qed.

Lemma mounted_serial_inv : serial_inv mounted.
Proof.
  split; [apply mounted_mime_inv|]. split; [done|].
  exists Idle. cbn. repeat split; try done.
Qed.

Ltac pick_phase :=
  first [ exists Idle; cbn; by (repeat split; eauto; try (intros [? [=]]))
        | exists Starting; cbn; by (repeat split; eauto)
        | exists Capturing; cbn; by (repeat split; eauto)
        | exists Finalizing; cbn; by (repeat split; eauto)
        | exists Transcribing; cbn; by (repeat split; eauto) ].

Ltac open_phase p H :=
  destruct p; cbn in H; destruct_and?;
  repeat match goal with
         | H' : ∃ _, _ |- _ => destruct H'
         end;
  destruct_and?; simplify_eq.

Lemma step_serial_inv (e : Event) (w w' : World) :
  step e w = Some w' → overlaps e w = false →
  serial_inv w → serial_inv w'.
Proof.
  intros Hstep Hserial (Hmime & Hrec & p & Hphase).
  split; [by eapply step_mime_inv|].
  destruct Hmime as [Htypes _].
  open_world w. cbn in Htypes, Hrec.
  destruct e; unfold step in Hstep; cbn in Hstep, Hserial.
  - (* MicClick *)
    destruct isTr; [done|].
    unfold handleMicClick_begin, stopRecording, startRecording_begin in Hstep.
    cbn in Hstep. destruct isRec.
    + destruct Hrec as [recorder ->]; [done|]. cbn in Hstep. simplify_eq.
      open_phase p Hphase. cbn. split; [done|]. pick_phase.
    + cbn in Hserial. destruct sg; [|done]. destruct st; [|done].
      simplify_eq. open_phase p Hphase; cbn.
      all: split; [by eauto|].
      all: pick_phase.
  - (* MediaAnswered *)
    destruct sg as [|sg]; [done|]. simplify_eq.
    open_phase p Hphase. unfold startRecording_resume.
    destruct dev as [[] opus []]; cbn.
    all: split; [by eauto|].
    all: pick_phase.
  - (* StopClick *)
    destruct isRec; [|done]. unfold stopRecording in Hstep. cbn in Hstep.
    destruct Hrec as [recorder ->]; [done|]. cbn in Hstep. simplify_eq.
    open_phase p Hphase. cbn. split; [done|]. pick_phase.
  - (* DataAvailable *)
    destruct st as [|recorder st]; [done|]. simplify_eq.
    open_phase p Hphase.
    unfold ondataavailable. case_match; cbn.
    all: split; [done|]; pick_phase.
  - (* RecorderStopped *)
    destruct (st !! k) as [recorder|] eqn:Hk; [|done]. simplify_eq.
    open_phase p Hphase; try by rewrite lookup_nil in Hk.
    apply list_lookup_singleton_Some in Hk as [-> ->].
    cbn. split; [done|].
    exists Transcribing. cbn. repeat split; try done.
    eexists. split; [apply last_snoc|done].
  - (* RetryClick *)
    destruct err as [shown|]; [|done]. destruct (truthy shown); [|done].
    open_phase p Hphase.
    match goal with
    | H : is_Some (Some shown) → _ |- _ => destruct H as (r & Hlast & Hhead); [by eauto|]
    end.
    unfold onRetryClick, retryTranscription in Hstep. cbn in Hstep.
    rewrite Hlast in Hstep. cbn in Hstep.
    rewrite (Htypes r) in Hstep by (by apply last_Some_elem_of).
    simplify_eq. cbn. split; [done|].
    exists Transcribing. cbn. repeat split; try done. eauto.
  - (* Settled *)
    destruct (pe !! k) as [c|] eqn:Hk; [|done]. simplify_eq.
    open_phase p Hphase; try by rewrite lookup_nil in Hk.
    apply list_lookup_singleton_Some in Hk as [-> <-].
    unfold is_failure, transcribeAudio_settle.
    destruct (received o) as [error|t]; cbn.
    + split; [done|]. exists Idle. cbn. repeat split; try done. eauto.
    + destruct ta as [textarea|]; cbn.
      all: split; [done|].
      all: exists Idle; cbn; repeat split; try done.
      all: by intros [? [=]].
  - (* PlayClick *)
    simplify_eq. unfold togglePlayback. cbn.
    assert (Hframe : ∀ s : Session,
              recordings s = recs → isRecording s = isRec →
              isTranscribing s = isTr → transcriptionError s = err →
              mediaRecorderRef s = mrec → hasPermission s = perm →
              (isRecording s = true → is_Some (mediaRecorderRef s)) ∧
              ∃ p, in_phase p {| component := s; starting := sg; stopping := st;
                                 pending := pe; ended := en; rendered := rd;
                                 orphans := orp; failures := fa |}).
    { intros s Hs1 Hs2 Hs3 Hs4 Hs5 Hs6. rewrite Hs2, Hs5. split; [done|].
      exists p.
      destruct p; cbn in Hphase |- *; by rewrite ?Hs1, ?Hs2, ?Hs3, ?Hs4, ?Hs6. }
    repeat case_match; by apply Hframe.
  - (* PlayedToEnd *)
    destruct (refs !! recordingId) as [el|]; [|done].
    destruct (playing el); [|done]. simplify_eq.
    cbn. split; [done|]. exists p. by destruct p.
  - (* OrphanPlayedToEnd *)
    destruct (orp !! k) as [el|]; [|done].
    destruct (playing el); [|done]. simplify_eq.
    cbn. split; [done|]. exists p. by destruct p.
  - (* Ended *)
    destruct en; [done|]. simplify_eq.
    cbn. split; [done|]. exists p. by destruct p.
  - (* AudioMounted *)
    destruct (recs !! rd); [|done]. case_decide; [|done]. simplify_eq.
    cbn. split; [done|]. exists p. by destruct p.
  - (* TextInput *)
    destruct ta; [|done]. simplify_eq.
    cbn. split; [done|]. exists p. by destruct p.
Qed.

Lemma run_serial_inv (es : list Event) (w w' : World) :
  run es w = Some w' → serial es w → serial_inv w → serial_inv w'.
Proof.
  revert w. induction es as [|e es IH]; intros w Hrun Hserial Hinv; simpl in *.
  - by simplify_eq.
  - destruct Hserial as [Hfree Hrest].
    destruct (step e w) as [w1|] eqn:Hstep; [|done].
    eapply IH; [done..|]. by eapply step_serial_inv.
Qed.

Lemma retry_call_of_last (w : World) (r : AudioRecording) :
  mime_inv w →
  last (recordings (component w)) = Some r →
  (onRetryClick (component w)).2 = Some (call_of r).
Proof.
  intros [Htypes _] Hlast. unfold onRetryClick, retryTranscription.
  rewrite Hlast. cbn. by rewrite (Htypes r) by (by apply last_Some_elem_of).
Qed.

Lemma serial_inv_failure (w : World) :
  serial_inv w → banner_shown (component w) = true →
  ∃ r, last (recordings (component w)) = Some r ∧
       head (failures w) = Some (call_of r).
Proof.
  intros (_ & _ & p & Hphase) Hshown. unfold banner_shown in Hshown.
  destruct (transcriptionError (component w)) as [shown|] eqn:Herr; [|done].
  destruct p; cbn in Hphase; destruct_and?; try congruence.
  match goal with
  | H : is_Some _ → _ |- _ => apply H
  end.
  rewrite Herr. eauto.
Qed.

(** Two invocations of [startRecording] wait for the microphone at the
    same time; both are granted, the request for the first recording
    fails and the one for the second succeeds: Retry targets the second
    recording. *)
Lemma retry_after_two_waiting_starts :
  ∃ w, run Samples.two_starts_waiting mounted = Some w ∧
       banner_shown (component w) = true ∧
       call_recordingId <$> head (failures w) = Some "1000" ∧
       call_recordingId <$> (onRetryClick (component w)).2 = Some "2000".
Proof. vm_compute. eauto. Qed.

(** The counterexample to C2: two captures overlap, the request for the
    first recording fails, the one for the second succeeds; Retry then
    targets the second recording and not the one that failed. *)
Lemma retry_can_miss_the_failed_recording :
  ¬ (∀ es w, run es mounted = Some w → retry_targets_last_failure w).
Proof.
  intros Hclaim.
  assert (∃ w, run Samples.overlapping_captures mounted = Some w ∧
               banner_shown (component w) = true ∧
               call_recordingId <$> head (failures w) = Some "1000" ∧
               call_recordingId <$> (onRetryClick (component w)).2 = Some "2000")
    as (w & Hrun & Hshown & Hfailed & Hretry) by (vm_compute; eauto).
  destruct (Hclaim _ _ Hrun Hshown) as (c & r & Hhead & _ & Hid & Hcall).
  rewrite Hhead in Hfailed. rewrite Hcall in Hretry. cbn in Hfailed, Hretry.
  congruence.
Qed.

(** C2, amended.  A click on Retry re-invokes the transcription for the
    last recording of the list, reusing its stored payload and the mime
    type stored with it, and does nothing when there is no recording.  As
    long as no capture is begun while another one waits for the
    microphone or while an earlier recorder is still to deliver its stop
    event, the banner is only shown when that last recording is the one
    whose transcription failed most recently. *)
Theorem retry_targets_last_recording :
  (∀ es w r,
     run es mounted = Some w →
     last (recordings (component w)) = Some r →
     onRetryClick (component w)
     = ((transcribeAudio (blob r) (type (blob r)) (id r) (component w)).1,
        Some (call_of r))) ∧
  (∀ s, last (recordings s) = None → onRetryClick s = (s, None)) ∧
  (∀ es w,
     run es mounted = Some w → serial es mounted →
     banner_shown (component w) = true →
     ∃ r, last (recordings (component w)) = Some r ∧
          head (failures w) = Some (call_of r) ∧
          (onRetryClick (component w)).2 = Some (call_of r)).
Proof.
  split; [|split].
  - intros es w r Hrun Hlast.
    pose proof (run_mime_inv _ _ _ Hrun mounted_mime_inv) as [Htypes _].
    unfold onRetryClick, retryTranscription. rewrite Hlast.
    by rewrite (Htypes r) by (by apply last_Some_elem_of).
  - intros s Hlast. unfold onRetryClick. by rewrite Hlast.
  - intros es w Hrun Hserial Hshown.
    pose proof (run_serial_inv _ _ _ Hrun Hserial mounted_serial_inv) as Hinv.
    destruct (serial_inv_failure _ Hinv Hshown) as (r & Hlast & Hhead).
    exists r. split; [done|]. split; [done|].
    apply retry_call_of_last; [apply Hinv|done].
Qed.

Lemma retry_targets_last_recording_witness :
  ∃ r, last (recordings (component Samples.after_failure)) = Some r ∧
       head (failures Samples.after_failure) = Some (call_of r) ∧
       (onRetryClick (component Samples.after_failure)).2 = Some (call_of r).
Proof.
  refine (proj2 (proj2 retry_targets_last_recording) Samples.failed_once _ _ _ _).
  - vm_compute. reflexivity.
  - vm_compute. repeat split.
  - vm_compute. reflexivity.
Defined.

(** * Further properties *)

(** ** The gateway, case by case *)

(** X1.  Whatever the request, the gateway answers 200, 400 or 500 and
    calls the external model at most once; it answers 200 only after
    exactly one call, and 400 only without any. *)
Theorem POST_statuses_and_calls
    (transcribe : Bytes → JsError + string) (not_a_function : JsError)
    (request : Gateway.NextRequest) :
  let calls := (Gateway.POST transcribe not_a_function request).1 in
  let answer := (Gateway.POST transcribe not_a_function request).2 in
  (Gateway.status answer = 200 ∨ Gateway.status answer = 400 ∨
   Gateway.status answer = 500) ∧
  (length calls ≤ 1)%nat ∧
  (Gateway.status answer = 200 → length calls = 1%nat ∧ Gateway.error_of answer = None) ∧
  (Gateway.status answer = 400 → calls = []) ∧
  (Gateway.status answer ≠ 200 → is_Some (Gateway.error_of answer)).
Proof.
  unfold Gateway.POST.
  destruct (Gateway.formData request) as [e|fd]; cbn.
  { repeat split; eauto; try done; lia. }
  destruct (Gateway.FormData_get "audio" fd) as [[f|[|c s]]|]; cbn;
    try (repeat split; eauto; try done; lia).
  destruct (Gateway.size_limit <? size (blob_of f))%N; cbn;
    [repeat split; eauto; try done; lia|].
  destruct (transcribe (bytes (blob_of f))); cbn;
    repeat split; eauto; try done; lia.
Qed.

(** X2.  A file of at most 25 MiB, the limit included, is handed to the
    external model once and with its bytes as they are; when the model
    returns [text] the answer is 200 and carries [text] verbatim, together
    with its length and the size of the audio. *)
Theorem POST_forwards_file
    (transcribe : Bytes → JsError + string) (not_a_function : JsError)
    (request : Gateway.NextRequest) (fd : Gateway.FormData) (audio : File)
    (text : string) :
  Gateway.formData request = inr fd →
  Gateway.FormData_get "audio" fd = Some (Gateway.EntryFile audio) →
  (size (blob_of audio) ≤ 25 * 1024 * 1024)%N →
  transcribe (bytes (blob_of audio)) = inr text →
  Gateway.POST transcribe not_a_function request
  = ([bytes (blob_of audio)],
     Gateway.NextResponse_json
       (JObj [("text", JStr text);
              ("success", JBool true);
              ("debug",
               JObj [("request",
                      JObj [("model", JStr "whisper-1");
                            ("audioSize", JNum (Z.of_N (size (blob_of audio))));
                            ("audioType", JStr (type (blob_of audio)));
                            ("fileName", JStr (name audio));
                            ("language", JStr "auto-detect");
                            ("endpoint", JStr "AI SDK transcribe")]);
                     ("response",
                      JObj [("text", JStr text);
                            ("textLength", JNum (Z.of_nat (String.length text)));
                            ("success", JBool true)])])])
       200).
Proof.
  intros Hfd Hget Hsize Hmodel. unfold Gateway.POST. rewrite Hfd, Hget.
  change Gateway.size_limit with (25 * 1024 * 1024)%N.
  apply N.ltb_ge in Hsize. rewrite Hsize, Hmodel. done.
Qed.

Lemma POST_forwards_file_witness :
  (Gateway.POST Samples.hello_model Samples.type_error Samples.request_at_limit).1
  = [Samples.zeros 26214400].
Proof.
  refine (f_equal fst
            (POST_forwards_file Samples.hello_model Samples.type_error
               Samples.request_at_limit _ _ "hello world" eq_refl eq_refl _ eq_refl)).
  vm_compute. discriminate.
Defined.

(** X3.  When the external model throws, the gateway has called it once,
    does not call it again, and answers 500 with the message of the error
    behind the prefix [Transcription failed: ]. *)
Theorem POST_reports_model_failure
    (transcribe : Bytes → JsError + string) (not_a_function : JsError)
    (request : Gateway.NextRequest) (fd : Gateway.FormData) (audio : File)
    (error : JsError) :
  Gateway.formData request = inr fd →
  Gateway.FormData_get "audio" fd = Some (Gateway.EntryFile audio) →
  (size (blob_of audio) ≤ 25 * 1024 * 1024)%N →
  transcribe (bytes (blob_of audio)) = inl error →
  let calls := (Gateway.POST transcribe not_a_function request).1 in
  let answer := (Gateway.POST transcribe not_a_function request).2 in
  calls = [bytes (blob_of audio)] ∧
  Gateway.status answer = 500 ∧
  Gateway.error_of answer = Some (JStr ("Transcription failed: " +:+ message error)).
Proof.
  intros Hfd Hget Hsize Hmodel. unfold Gateway.POST. rewrite Hfd, Hget.
  change Gateway.size_limit with (25 * 1024 * 1024)%N.
  apply N.ltb_ge in Hsize. rewrite Hsize, Hmodel. done.
Qed.

Lemma POST_reports_model_failure_witness :
  Gateway.error_of
    (Gateway.POST Samples.limited_model Samples.type_error Samples.request_at_limit).2
  = Some (JStr "Transcription failed: rate limit exceeded").
Proof.
  refine (proj2 (proj2
            (POST_reports_model_failure Samples.limited_model Samples.type_error
               Samples.request_at_limit _ _ (new_Error "rate limit exceeded")
               eq_refl eq_refl _ eq_refl))).
  vm_compute. discriminate.
Defined.

(** X4.  An [audio] entry that is text and not a file never reaches the
    external model: the empty string is answered like a missing entry,
    with 400, any other string with 500 and the error that the call of
    [arrayBuffer] throws. *)
Theorem POST_text_entry
    (transcribe : Bytes → JsError + string) (not_a_function : JsError)
    (request : Gateway.NextRequest) (fd : Gateway.FormData) (s : string) :
  Gateway.formData request = inr fd →
  Gateway.FormData_get "audio" fd = Some (Gateway.EntryString s) →
  let calls := (Gateway.POST transcribe not_a_function request).1 in
  let answer := (Gateway.POST transcribe not_a_function request).2 in
  calls = [] ∧
  (s = "" → Gateway.status answer = 400 ∧
            Gateway.error_of answer = Some (JStr "No audio file provided")) ∧
  (s ≠ "" → answer = Gateway.failure_response not_a_function).
Proof.
  intros Hfd Hget. unfold Gateway.POST. rewrite Hfd, Hget.
  destruct s; cbn; repeat split; try done.
Qed.

Lemma POST_text_entry_witness :
  (Gateway.POST Samples.hello_model Samples.type_error Samples.request_with_text).2
  = Gateway.failure_response Samples.type_error.
Proof.
  refine (proj2 (proj2
            (POST_text_entry Samples.hello_model Samples.type_error
               Samples.request_with_text _ "hello" eq_refl eq_refl)) _).
  discriminate.
Defined.

(** X5.  The external model is called exactly when the request carries,
    under the name [audio], a file of at most 25 MiB, and then with the
    bytes of that file. *)
Theorem model_called_exactly_for_files
    (transcribe : Bytes → JsError + string) (not_a_function : JsError)
    (request : Gateway.NextRequest) (audio : Bytes) :
  audio ∈ (Gateway.POST transcribe not_a_function request).1 ↔
  ∃ fd f, Gateway.formData request = inr fd ∧
          Gateway.FormData_get "audio" fd = Some (Gateway.EntryFile f) ∧
          (size (blob_of f) ≤ 25 * 1024 * 1024)%N ∧
          audio = bytes (blob_of f).
Proof.
  split.
  - intros Hcall.
    destruct (model_called_only_with_a_file _ _ _ _ Hcall) as (fd & f & ? & ? & ? & ?).
    eauto 10.
  - intros (fd & f & Hfd & Hget & Hsize & ->). unfold Gateway.POST.
    rewrite Hfd, Hget. change Gateway.size_limit with (25 * 1024 * 1024)%N.
    apply N.ltb_ge in Hsize. rewrite Hsize.
    destruct (transcribe (bytes (blob_of f))); cbn; by apply list_elem_of_singleton.
Qed.

(** ** What counts as a transcription *)

(** X6.  The [try] block of [transcribeAudio] goes on with a text exactly
    when the response has a 2xx status and a JSON object as body whose
    [text] member is truthy; everything else ends in the [catch] block. *)
Theorem received_success_iff (o : FetchResult) (t : Json) :
  received o = inr t ↔
  ∃ response fields,
    o = FetchResponse response ∧ ok response = true ∧
    body response = JsonBody (JObj fields) ∧
    get_property "text" fields = Some t ∧ truthy_value t = true.
Proof.
  split.
  - unfold received. destruct o as [error|response]; [done|].
    destruct (ok response) eqn:Hok; cbn; [|done].
    unfold json. destruct (body response) as [j|raw e] eqn:Hbody; [|done].
    destruct j as [|b|n|s|fields]; cbn; try done.
    destruct (get_property "text" fields) as [v|] eqn:Hget; [|done].
    destruct (truthy_value v) eqn:Htruthy; [|done].
    intros [= <-]. eauto 10.
  - intros (response & fields & -> & Hok & Hbody & Hget & Htruthy).
    unfold received, json. rewrite Hok, Hbody. cbn. by rewrite Hget, Htruthy.
Qed.

(** X7.  A recording of more than 25 MiB, sent to the gateway, comes back
    as a failure: the external model is not called, the last error shows
    the status 400 and the body of the answer, and the recordings and the
    draft text are left as they were. *)
Theorem oversized_recording_is_kept
    (transcribe : Bytes → JsError + string) (not_a_function : JsError)
    (c : Call) (s : Session) :
  (25 * 1024 * 1024 < size (call_blob c))%N →
  let o := Service.fetch_transcribe transcribe not_a_function c in
  let s' := transcribeAudio_settle (call_recordingId c) o s in
  (Gateway.POST transcribe not_a_function (Service.request_of c)).1 = [] ∧
  transcriptionError s'
  = Some ("API request failed: 400 - " +:+
          JSON_stringify (JObj [("error", JStr "File size exceeds 25MB limit")])) ∧
  recordings s' = recordings s ∧
  textareaRef s' = textareaRef s ∧
  isTranscribing s' = false.
Proof.
  intros Hsize o s'.
  assert (HPOST : Gateway.POST transcribe not_a_function (Service.request_of c)
                  = ([], Gateway.NextResponse_json
                           (JObj [("error", JStr "File size exceeds 25MB limit")]) 400)).
  { unfold Gateway.POST, Service.request_of, upload.
    cbn [Gateway.formData Gateway.FormData_get]. rewrite decide_True by done.
    rewrite size_audioFile. change Gateway.size_limit with (25 * 1024 * 1024)%N.
    apply N.ltb_lt in Hsize. by rewrite Hsize. }
  split; [by rewrite HPOST|].
  subst s' o. unfold transcribeAudio_settle, Service.fetch_transcribe.
  rewrite HPOST. done.
Qed.

Lemma oversized_recording_is_kept_witness :
  recordings
    (transcribeAudio_settle "1000"
       (Service.fetch_transcribe Samples.hello_model Samples.type_error Samples.long_memo)
       Samples.two_recordings)
  = recordings Samples.two_recordings.
Proof.
  refine (proj1 (proj2 (proj2
            (oversized_recording_is_kept Samples.hello_model Samples.type_error
               Samples.long_memo Samples.two_recordings _)))).
  vm_compute. reflexivity.
Defined.

(** X8.  When the external model throws while the gateway serves a
    recording within the limit, the component ends with the last error
    made of the status 500 and the body that the gateway built from the
    thrown error; the recordings and the draft text are left as they
    were. *)
Theorem upstream_failure_is_surfaced
    (transcribe : Bytes → JsError + string) (not_a_function : JsError)
    (c : Call) (error : JsError) (s : Session) :
  (size (call_blob c) ≤ 25 * 1024 * 1024)%N →
  transcribe (bytes (blob_of (audioFile c))) = inl error →
  let o := Service.fetch_transcribe transcribe not_a_function c in
  let s' := transcribeAudio_settle (call_recordingId c) o s in
  transcriptionError s'
  = Some ("API request failed: 500 - " +:+
          JSON_stringify (Gateway.body (Gateway.failure_response error))) ∧
  recordings s' = recordings s ∧
  textareaRef s' = textareaRef s ∧
  isTranscribing s' = false.
Proof.
  intros Hsize Hmodel o s'.
  assert (HPOST : (Gateway.POST transcribe not_a_function (Service.request_of c)).2
                  = Gateway.failure_response error).
  { unfold Gateway.POST, Service.request_of, upload.
    cbn [Gateway.formData Gateway.FormData_get]. rewrite decide_True by done.
    rewrite size_audioFile. change Gateway.size_limit with (25 * 1024 * 1024)%N.
    apply N.ltb_ge in Hsize. by rewrite Hsize, Hmodel. }
  subst s' o. unfold transcribeAudio_settle, Service.fetch_transcribe.
  rewrite HPOST. done.
Qed.

Lemma upstream_failure_is_surfaced_witness :
  transcriptionError
    (transcribeAudio_settle "1000"
       (Service.fetch_transcribe Samples.limited_model Samples.type_error Samples.memo)
       Samples.two_recordings)
  = Some ("API request failed: 500 - " +:+
          JSON_stringify
            (Gateway.body (Gateway.failure_response (new_Error "rate limit exceeded")))).
Proof.
  refine (proj1
            (upstream_failure_is_surfaced Samples.limited_model Samples.type_error
               Samples.memo (new_Error "rate limit exceeded") Samples.two_recordings
               _ eq_refl)).
  vm_compute. discriminate.
Defined.

(** X9.  A successful transcription for an identifier that no recording
    carries leaves the recordings as they were, and still appends the
    text to the draft. *)
Theorem transcription_for_unknown_recording
    (recordingId : string) (o : FetchResult) (s : Session) (t : string)
    (textarea : HTMLTextAreaElement) :
  received o = inr (JStr t) →
  recordingId ∉ id <$> recordings s →
  textareaRef s = Some textarea →
  let s' := transcribeAudio_settle recordingId o s in
  recordings s' = recordings s ∧
  textareaRef s'
  = Some {| value := if truthy (value textarea)
                     then value textarea +:+ " " +:+ t else t |}.
Proof.
  intros Hok Hunknown Href s'. subst s'. unfold transcribeAudio_settle.
  rewrite Hok. cbn. rewrite Href. cbn. split; [|done].
  rewrite <- (list_fmap_id (recordings s)) at 2.
  apply list_fmap_ext. intros i r Hi. simpl.
  rewrite decide_False; [done|]. intros Heq. apply Hunknown.
  rewrite <- Heq. apply list_elem_of_fmap_2. by eapply list_elem_of_lookup_2.
Qed.

Lemma transcription_for_unknown_recording_witness :
  recordings
    (transcribeAudio_settle "3000" (Samples.success_with "foo") Samples.two_recordings)
  = recordings Samples.two_recordings.
Proof.
  refine (proj1
            (transcription_for_unknown_recording "3000" (Samples.success_with "foo")
               Samples.two_recordings "foo" {| value := "" |} eq_refl _ eq_refl)).
  cbn. rewrite !elem_of_cons, elem_of_nil. intros [|[|[]]]; discriminate.
Defined.

(** ** A capture from start to recording *)

Lemma run_app (es1 es2 : list Event) (w : World) :
  run (es1 ++ es2) w = run es1 w ≫= run es2.
Proof.
  revert w. induction es1 as [|e es1 IH]; intros w; simpl; [done|].
  destruct (step e w); simpl; [apply IH|done].
Qed.

(** The two halves of [startRecording] make up the whole when nothing
    runs in between; so do those of [handleMicClick]. *)
Lemma startRecording_split (dev : Device) (s : Session) :
  startRecording dev s = startRecording_resume dev (startRecording_begin s).
Proof. reflexivity. Qed.

Lemma handleMicClick_split (dev : Device) (s : Session) :
  handleMicClick dev s
  = let '(s', stopped, waits) := handleMicClick_begin s in
    (if waits then startRecording_resume dev s' else s', stopped).
Proof.
  unfold handleMicClick, handleMicClick_begin.
  destruct (isRecording s); [by destruct (stopRecording s)|done].
Qed.

Lemma set_audioChunksRef_same (s : Session) :
  set_audioChunksRef (audioChunksRef s) s = s.
Proof. by destruct s. Qed.

Lemma with_component_same (w : World) : with_component (component w) w = w.
Proof. by destruct w. Qed.

(** The total size of some chunks. *)
Lemma size_new_Blob (parts : list Blob) (ty : string) :
  size (new_Blob parts ty) = foldr (λ p n, size p + n)%N 0%N parts.
Proof.
  unfold size. cbn. induction parts as [|p parts IH]; cbn; [done|].
  by rewrite IH.
Qed.

Lemma size_filter_nonempty (parts : list Blob) :
  foldr (λ p n, size p + n)%N 0%N (filter (λ p, (0 < size p)%N) parts)
  = foldr (λ p n, size p + n)%N 0%N parts.
Proof.
  induction parts as [|p parts IH]; [done|].
  rewrite filter_cons. case_decide; cbn; rewrite IH; lia.
Qed.

(** X10.  While a recorder is stopping, the chunks that it delivers are
    appended to the buffer in the order of their arrival, the empty ones
    are dropped, and nothing else of the session changes. *)
Theorem chunks_are_buffered_in_order (chunks : list Blob) (w : World) :
  stopping w ≠ [] →
  run (DataAvailable <$> chunks) w
  = Some (with_component
            (set_audioChunksRef
               (audioChunksRef (component w)
                ++ filter (λ p, (0 < size p)%N) chunks) (component w)) w).
Proof.
  revert w. induction chunks as [|data chunks IH]; intros w Hstopping.
  - cbn. by rewrite app_nil_r, set_audioChunksRef_same, with_component_same.
  - rewrite fmap_cons, filter_cons. cbn [run]. unfold step at 1.
    destruct (stopping w) as [|recorder st] eqn:Hst; [done|].
    rewrite IH by (cbn; by rewrite Hst). f_equal.
    unfold ondataavailable.
    destruct (0 <? size data)%N eqn:Hsize.
    + apply N.ltb_lt in Hsize. rewrite decide_True by done.
      destruct w as [s ? ? ? ? ? ? ?]. destruct s. cbn. by rewrite <- app_assoc.
    + apply N.ltb_ge in Hsize. rewrite decide_False by lia.
      by destruct w.
Qed.

Lemma chunks_are_buffered_in_order_witness :
  run (DataAvailable <$> [Samples.webm 4000; Samples.webm 0; Samples.webm 6000])
    Samples.after_stop
  = Some (with_component
            (set_audioChunksRef
               (audioChunksRef (component Samples.after_stop)
                ++ filter (λ p, (0 < size p)%N)
                     [Samples.webm 4000; Samples.webm 0; Samples.webm 6000])
               (component Samples.after_stop)) Samples.after_stop).
Proof.
  apply (chunks_are_buffered_in_order
           [Samples.webm 4000; Samples.webm 0; Samples.webm 6000] Samples.after_stop).
  discriminate.
Defined.

(** X11.  From a session that neither records nor transcribes, with a
    microphone that is granted: a click to start, the answer of the
    browser, a click to stop, the chunks of the recorder and its stop
    event always run through, and append exactly one recording.  The buffer is emptied at the start,
    so the payload has the total size of the chunks of this recorder, and
    it has the chosen mime type; the recording has no transcription yet,
    and the request for it is the one now pending. *)
Theorem capture_appends_one_recording
    (w : World) (dev : Device) (chunks : list Blob) (now date : Z)
    (objectURL : string) :
  isRecording (component w) = false →
  isTranscribing (component w) = false →
  stopping w = [] →
  getUserMedia dev = true → recorderCreated dev = true →
  ∃ w' r,
    run ([MicClick; MediaAnswered dev; StopClick] ++ (DataAvailable <$> chunks)
         ++ [RecorderStopped 0 now date objectURL]) w = Some w' ∧
    recordings (component w') = recordings (component w) ++ [r] ∧
    id r = pretty now ∧ url r = objectURL ∧ timestamp r = date ∧
    transcription r = None ∧
    type (blob r) = (if isTypeSupported dev then "audio/webm;codecs=opus"
                     else "audio/webm") ∧
    size (blob r) = foldr (λ p n, size p + n)%N 0%N chunks ∧
    pending w' = pending w ++ [call_of r] ∧
    stopping w' = [] ∧
    isRecording (component w') = false ∧
    isProcessing (component w') = false ∧
    isTranscribing (component w') = true ∧
    transcriptionError (component w') = None.
Proof.
  intros Hidle Hquiet Hst Hgranted Hcreated.
  destruct w as [s sg st pe en rd orp fa]. cbn in Hidle, Hquiet, Hst. subst st.
  destruct s as [isRec perm recs proc pid isTr err mrec bufs refs ta].
  cbn in Hidle, Hquiet. subst isRec isTr.
  destruct dev as [granted opus created]. cbn in Hgranted, Hcreated.
  subst granted created.
  eexists _, _. split.
  { cbn [app run]. cbn.
    rewrite run_app. rewrite chunks_are_buffered_in_order by done.
    cbn. reflexivity. }
  repeat split; try done.
  cbn [blob]. rewrite size_new_Blob. apply size_filter_nonempty.
Qed.

Lemma capture_appends_one_recording_witness :
  ∃ w' r,
    run ([MicClick; MediaAnswered Samples.microphone; StopClick]
         ++ (DataAvailable <$> [Samples.webm 4000; Samples.webm 6000])
         ++ [RecorderStopped 0 1000 1000 "blob:a"]) mounted = Some w' ∧
    recordings (component w') = [r] ∧ size (blob r) = 10000%N.
Proof.
  destruct (capture_appends_one_recording mounted Samples.microphone
              [Samples.webm 4000; Samples.webm 6000] 1000 1000 "blob:a"
              eq_refl eq_refl eq_refl eq_refl eq_refl)
    as (w' & r & Hrun & Hrecs & _ & _ & _ & _ & _ & Hsize & _).
  exists w', r. split; [exact Hrun|]. split; [exact Hrecs|exact Hsize].
Defined.

(** ** Capture and transcription, composed *)

Lemma settle_success (recordingId : string) (o : FetchResult) (s : Session)
    (t : Json) :
  received o = inr t →
  recordings (transcribeAudio_settle recordingId o s)
  = (λ recording, if decide (id recording = recordingId)
                  then with_transcription t recording else recording)
    <$> recordings s ∧
  transcriptionError (transcribeAudio_settle recordingId o s)
  = transcriptionError s ∧
  isTranscribing (transcribeAudio_settle recordingId o s) = false.
Proof.
  intros Hok. unfold transcribeAudio_settle. rewrite Hok. cbn.
  by destruct (textareaRef s).
Qed.

(** X12.  When the request issued at the end of a capture succeeds with
    the text [t], the recording just appended is the last of the list and
    carries [t]; no error is shown and the transcribing flag is down. *)
Theorem capture_then_success
    (mime : string) (now date : Z) (objectURL : string) (s : Session)
    (o : FetchResult) (t : Json) :
  received o = inr t →
  let s1 := (onstop mime now date objectURL s).1 in
  let c := (onstop mime now date objectURL s).2 in
  let s2 := transcribeAudio_settle (call_recordingId c) o s1 in
  last (recordings s2)
  = Some {| id := pretty now; url := objectURL;
            blob := new_Blob (audioChunksRef s) mime; timestamp := date;
            transcription := Some t |} ∧
  length (recordings s2) = S (length (recordings s)) ∧
  transcriptionError s2 = None ∧
  isTranscribing s2 = false.
Proof.
  intros Hok s1 c s2.
  destruct (settle_success (call_recordingId c) o s1 t Hok) as (Hrecs & Herr & Hflag).
  assert (Hnew : recordings s1
                 = recordings s
                   ++ [{| id := pretty now; url := objectURL;
                          blob := new_Blob (audioChunksRef s) mime;
                          timestamp := date; transcription := None |}]) by done.
  assert (Hid : call_recordingId c = pretty now) by done.
  assert (Hnone : transcriptionError s1 = None) by done.
  subst s2. rewrite Hrecs, Herr, Hflag, Hnew, Hid, Hnone.
  rewrite fmap_app, length_app, length_fmap.
  change ((λ recording : AudioRecording,
             if decide (id recording = pretty now)
             then with_transcription t recording else recording)
          <$> [{| id := pretty now; url := objectURL;
                  blob := new_Blob (audioChunksRef s) mime;
                  timestamp := date; transcription := None |}])
    with [if decide (pretty now = pretty now)
          then {| id := pretty now; url := objectURL;
                  blob := new_Blob (audioChunksRef s) mime;
                  timestamp := date; transcription := Some t |}
          else {| id := pretty now; url := objectURL;
                  blob := new_Blob (audioChunksRef s) mime;
                  timestamp := date; transcription := None |}].
  rewrite last_snoc, decide_True by done. repeat split; try done.
  cbn. lia.
Qed.

Lemma capture_then_success_witness :
  length
    (recordings
       (transcribeAudio_settle
          (call_recordingId (onstop "audio/webm" 1000 1000 "blob:a" initial).2)
          (Samples.success_with "one")
          (onstop "audio/webm" 1000 1000 "blob:a" initial).1)) = 1%nat.
Proof.
  exact (proj1 (proj2
           (capture_then_success "audio/webm" 1000 1000 "blob:a" initial
              (Samples.success_with "one") (JStr "one") eq_refl))).
Defined.

(** X13.  A retry that succeeds with the text [t] creates no recording:
    the list keeps its length and what was captured, and its last
    recording, the one retried, now carries [t]; the error is cleared and
    the transcribing flag is down. *)
Theorem retry_then_success (s : Session) (r : AudioRecording)
    (o : FetchResult) (t : Json) :
  last (recordings s) = Some r →
  received o = inr t →
  let s1 := (onRetryClick s).1 in
  let s2 := transcribeAudio_settle (id r) o s1 in
  (∃ c, (onRetryClick s).2 = Some c ∧ call_recordingId c = id r ∧
        call_blob c = blob r) ∧
  length (recordings s2) = length (recordings s) ∧
  captured <$> recordings s2 = captured <$> recordings s ∧
  last (recordings s2) = Some (with_transcription t r) ∧
  transcriptionError s2 = None ∧
  isTranscribing s2 = false.
Proof.
  intros Hlast Hok s1 s2.
  destruct (settle_success (id r) o s1 t Hok) as (Hrecs & Herr & Hflag).
  assert (Hsame : recordings s1 = recordings s ∧ transcriptionError s1 = None).
  { subst s1. unfold onRetryClick. by rewrite Hlast. }
  destruct Hsame as [Hsame Hnone].
  subst s2. rewrite Hrecs, Herr, Hflag, Hsame, Hnone.
  split.
  { unfold onRetryClick. rewrite Hlast. cbn. eauto. }
  rewrite length_fmap, fmap_last, Hlast.
  repeat split; try done.
  - rewrite <- list_fmap_compose. apply list_fmap_ext. intros i x _.
    simpl. by case_decide.
  - simpl. by rewrite decide_True.
Qed.

Lemma retry_then_success_witness :
  last
    (recordings
       (transcribeAudio_settle "2000" (Samples.success_with "two")
          (onRetryClick Samples.two_recordings).1))
  = Some (with_transcription (JStr "two") Samples.other_recording).
Proof.
  exact (proj1 (proj2 (proj2 (proj2
           (retry_then_success Samples.two_recordings Samples.other_recording
              (Samples.success_with "two") (JStr "two") eq_refl eq_refl))))).
Defined.

(** ** What every session keeps *)

Lemma webm_type_truthy (ty : string) : webm_type ty → truthy ty = true.
Proof. by intros [-> | ->]. Qed.

Lemma settle_captured (recordingId : string) (o : FetchResult) (s : Session) :
  captured <$> recordings (transcribeAudio_settle recordingId o s)
  = captured <$> recordings s.
Proof.
  unfold transcribeAudio_settle. destruct (received o) as [e|t]; cbn; [done|].
  destruct (textareaRef s); cbn; rewrite <- list_fmap_compose;
    apply list_fmap_ext; intros i r _; simpl; by case_decide.
Qed.

(** A recording of the same make is still there after a request settled. *)
Lemma settle_keeps_recording (recordingId : string) (o : FetchResult)
    (s : Session) (r : AudioRecording) :
  r ∈ recordings s →
  ∃ r', r' ∈ recordings (transcribeAudio_settle recordingId o s) ∧
        captured r' = captured r.
Proof.
  intros Hr.
  assert (captured r ∈ captured <$> recordings (transcribeAudio_settle recordingId o s))
    as (r' & Heq & Hr')%list_elem_of_fmap.
  { rewrite settle_captured. by apply list_elem_of_fmap_2. }
  eauto.
Qed.

Lemma call_for_recording_captured (s s' : Session) (c : Call) :
  (∀ r, r ∈ recordings s → ∃ r', r' ∈ recordings s' ∧ captured r' = captured r) →
  call_for_recording s c → call_for_recording s' c.
Proof.
  intros Hkeep (r & Hr & Hid & Hblob & Hty).
  destruct (Hkeep r Hr) as (r' & Hr' & Heq).
  unfold captured in Heq. simplify_eq.
  exists r'. repeat split; congruence.
Qed.

Lemma mounted_at_rest : at_rest mounted.
Proof.
  unfold at_rest. cbn.
  split; [done|]. split; [done|]. split; [by intros [? [=]]|].
  split; [by intros r ?%elem_of_nil|].
  split; [by intros recorder [?|?%elem_of_nil]|by intros c ?%elem_of_nil].
Qed.

Lemma step_at_rest (e : Event) (w w' : World) :
  step e w = Some w' → at_rest w → at_rest w'.
Proof.
  intros Hstep (Hproc & Hrec & Hperm & Htypes & Hmimes & Hcalls).
  destruct e; unfold step in Hstep.
  - (* MicClick *)
    destruct (isTranscribing (component w)); [done|].
    unfold handleMicClick_begin, stopRecording, startRecording_begin in Hstep.
    destruct (isRecording (component w)) eqn:Hrecording.
    + destruct Hrec as [recorder Href]; [done|]. rewrite Href in Hstep.
      simplify_eq. unfold at_rest; cbn.
      split; [done|]. split; [done|]. split; [done|]. split; [done|].
      split; [|done].
      intros r [Hr|[Hr| ->%list_elem_of_singleton]%elem_of_app];
        apply Hmimes; eauto.
    + simplify_eq. unfold at_rest; cbn. rewrite app_nil_r, Hrecording. done.
  - (* MediaAnswered *)
    destruct (starting w); [done|]. simplify_eq. unfold startRecording_resume.
    destruct dev as [[] opus []]; unfold at_rest; cbn;
      (split; [done|]); (split; [by eauto|]); (split; [by eauto|]);
      (split; [done|]); (split; [|done]); try done.
    intros r [Hr|Hr]; [|apply Hmimes; by right]. simplify_eq.
    destruct opus; [by right|by left].
  - (* StopClick *)
    unfold stopRecording in Hstep.
    destruct (isRecording (component w)) eqn:Hrecording; [|done].
    destruct Hrec as [recorder Href]; [done|]. rewrite Href in Hstep.
    simplify_eq. unfold at_rest; cbn.
    split; [done|]. split; [done|]. split; [done|]. split; [done|].
    split; [|done].
    intros r [Hr|[Hr| ->%list_elem_of_singleton]%elem_of_app];
      apply Hmimes; eauto.
  - (* DataAvailable *)
    destruct (stopping w) eqn:Hst; [done|]. simplify_eq. unfold ondataavailable.
    case_match; unfold at_rest; cbn; by rewrite Hst.
  - (* RecorderStopped *)
    destruct (stopping w !! k) as [recorder|] eqn:Hk; [|done].
    cbn in Hstep. simplify_eq.
    assert (Hty : webm_type (mimeType recorder)).
    { apply Hmimes. right. by eapply list_elem_of_lookup_2. }
    unfold at_rest; cbn.
    split; [done|]. split; [done|]. split; [done|]. split; [|split].
    + intros r [?| ->%list_elem_of_singleton]%elem_of_app; [by apply Htypes|done].
    + intros r [?|Hr]; apply Hmimes; [by left|right].
      by eapply list_elem_of_delete_inv.
    + intros c Hc.
      assert (c ∈ pending w ++ failures w ∨
              c = {| call_blob := new_Blob (audioChunksRef (component w)) (mimeType recorder);
                     call_mimeType := mimeType recorder;
                     call_recordingId := pretty now |}) as [Hold| ->].
      { rewrite !elem_of_app, list_elem_of_singleton in Hc.
        rewrite elem_of_app. tauto. }
      * destruct (Hcalls c Hold) as (r & Hr & ?).
        exists r. split; [|done]. apply elem_of_app. by left.
      * eexists. split; [apply elem_of_app; right; by apply list_elem_of_singleton|].
        done.
  - (* RetryClick *)
    destruct (transcriptionError (component w)) as [shown|]; [|done].
    destruct (truthy shown); [|done]. unfold onRetryClick in Hstep.
    destruct (last (recordings (component w))) as [r|] eqn:Hlast;
      cbn in Hstep; simplify_eq; unfold at_rest; cbn; rewrite ?app_nil_r;
      (split; [done|]); (split; [done|]); (split; [done|]); (split; [done|]);
      (split; [done|]); [|done].
    intros c Hc.
    assert (c ∈ pending w ++ failures w ∨
            c = {| call_blob := blob r;
                   call_mimeType := if truthy (type (blob r)) then type (blob r)
                                    else "audio/webm";
                   call_recordingId := id r |}) as [Hold| ->].
    { rewrite !elem_of_app, list_elem_of_singleton in Hc.
      rewrite elem_of_app. tauto. }
    + by apply Hcalls.
    + apply last_Some_elem_of in Hlast.
      exists r. repeat split; try done. cbn.
      by rewrite (webm_type_truthy _ (Htypes r Hlast)).
  - (* Settled *)
    destruct (pending w !! k) as [c0|] eqn:Hk; [|done]. simplify_eq.
    assert (Hframe : isProcessing (transcribeAudio_settle (call_recordingId c0) o (component w))
                     = isProcessing (component w) ∧
                     isRecording (transcribeAudio_settle (call_recordingId c0) o (component w))
                     = isRecording (component w) ∧
                     mediaRecorderRef (transcribeAudio_settle (call_recordingId c0) o (component w))
                     = mediaRecorderRef (component w) ∧
                     hasPermission (transcribeAudio_settle (call_recordingId c0) o (component w))
                     = hasPermission (component w)).
    { unfold transcribeAudio_settle. destruct (received o); cbn; [done|].
      by destruct (textareaRef (component w)). }
    destruct Hframe as (Hf1 & Hf2 & Hf3 & Hf4).
    unfold at_rest. cbn [component stopping pending failures with_component
                         with_pending with_failures].
    rewrite Hf1, Hf2, Hf3, Hf4.
    split; [done|]. split; [done|]. split; [done|]. split; [|split; [done|]].
    + intros r Hr.
      assert (captured r ∈ captured <$> recordings (component w))
        as (r0 & Heq & Hr0)%list_elem_of_fmap.
      { rewrite <- (settle_captured (call_recordingId c0) o).
        by apply list_elem_of_fmap_2. }
      unfold captured in Heq. simplify_eq.
      replace (blob r) with (blob r0) by done. by apply Htypes.
    + intros c Hc.
      eapply call_for_recording_captured; [apply settle_keeps_recording|].
      apply Hcalls. apply elem_of_app in Hc as [Hc|Hc].
      * apply elem_of_app; left. by eapply list_elem_of_delete_inv.
      * destruct (is_failure o); [|apply elem_of_app; by right].
        apply elem_of_cons in Hc as [->|Hc]; [|apply elem_of_app; by right].
        apply elem_of_app; left. by eapply list_elem_of_lookup_2.
  - (* PlayClick *)
    simplify_eq. unfold at_rest. cbn. unfold togglePlayback.
    repeat case_match; cbn; done.
  - (* PlayedToEnd *)
    destruct (audioRefs (component w) !! recordingId) as [el|]; [|done].
    destruct (playing el); by simplify_eq.
  - (* OrphanPlayedToEnd *)
    destruct (orphans w !! k) as [el|]; [|done].
    destruct (playing el); by simplify_eq.
  - (* Ended *)
    destruct (ended w); by simplify_eq.
  - (* AudioMounted *)
    destruct (recordings (component w) !! rendered w); [|done].
    case_decide; by simplify_eq.
  - (* TextInput *)
    destruct (textareaRef (component w)); by simplify_eq.
Qed.

Lemma run_at_rest (es : list Event) (w w' : World) :
  run es w = Some w' → at_rest w → at_rest w'.
Proof.
  revert w. induction es as [|e es IH]; intros w Hrun Hinv; simpl in Hrun.
  - by simplify_eq.
  - destruct (step e w) as [w1|] eqn:Hstep; [|done].
    eapply IH; [done|]. by eapply step_at_rest.
Qed.

(** X14.  Between events the processing flag is always down; while the
    session is recording there is a recorder, and once there is a
    recorder the request for the microphone has been answered. *)
Theorem flags_between_events (es : list Event) (w : World) :
  run es mounted = Some w →
  isProcessing (component w) = false ∧
  (isRecording (component w) = true → is_Some (mediaRecorderRef (component w))) ∧
  (is_Some (mediaRecorderRef (component w)) →
     is_Some (hasPermission (component w))).
Proof.
  intros Hrun.
  destruct (run_at_rest _ _ _ Hrun mounted_at_rest) as (Hproc & Hrec & Hperm & _).
  done.
Qed.

Lemma flags_between_events_witness :
  isProcessing (component Samples.after_failure) = false.
Proof.
  refine (proj1 (flags_between_events Samples.failed_once Samples.after_failure _)).
  vm_compute. reflexivity.
Defined.

(** Two starts wait for the microphone; the first is granted and the
    second refused: the session records with the permission marked as
    denied. *)
Lemma recording_with_permission_denied :
  ∃ w, run [MicClick; MicClick; MediaAnswered Samples.microphone;
            MediaAnswered Samples.no_microphone] mounted = Some w ∧
       isRecording (component w) = true ∧
       hasPermission (component w) = Some false.
Proof. vm_compute. eauto. Qed.

(** X15.  Every payload of the session has one of the two webm mime
    types, and every request, pending or failed, stands for a recording of
    the list: it carries the identifier of that recording, its payload
    and the mime type of that payload. *)
Theorem requests_stand_for_recordings (es : list Event) (w : World) :
  run es mounted = Some w →
  (∀ r, r ∈ recordings (component w) → webm_type (type (blob r))) ∧
  (∀ c, c ∈ pending w ++ failures w →
        call_for_recording (component w) c ∧ webm_type (call_mimeType c)).
Proof.
  intros Hrun.
  destruct (run_at_rest _ _ _ Hrun mounted_at_rest)
    as (_ & _ & _ & Htypes & _ & Hcalls).
  split; [done|]. intros c Hc. split; [by apply Hcalls|].
  destruct (Hcalls c Hc) as (r & Hr & _ & _ & <-). by apply Htypes.
Qed.

Lemma requests_stand_for_recordings_witness :
  ∃ c, head (failures Samples.after_failure) = Some c ∧
       call_for_recording (component Samples.after_failure) c ∧
       webm_type (call_mimeType c).
Proof.
  eexists. split; [vm_compute; reflexivity|].
  refine (proj2 (requests_stand_for_recordings Samples.failed_once
                   Samples.after_failure _) _ _).
  - vm_compute. reflexivity.
  - vm_compute. constructor.
Defined.

Lemma step_captured (e : Event) (w w' : World) :
  step e w = Some w' →
  captured <$> recordings (component w) `prefix_of` captured <$> recordings (component w').
Proof.
  intros Hstep. destruct e; unfold step in Hstep.
  - destruct (isTranscribing (component w)); [done|].
    unfold handleMicClick_begin, stopRecording, startRecording_begin in Hstep.
    repeat case_match; by simplify_eq.
  - destruct (starting w); [done|]. simplify_eq. cbn.
    unfold startRecording_resume. by repeat case_match.
  - destruct (isRecording (component w)); [|done].
    unfold stopRecording in Hstep. repeat case_match; by simplify_eq.
  - destruct (stopping w); [done|]. simplify_eq. unfold ondataavailable.
    by case_match.
  - destruct (stopping w !! k); [|done]. cbn in Hstep. simplify_eq. cbn.
    rewrite fmap_app. by apply prefix_app_r.
  - destruct (transcriptionError (component w)) as [shown|]; [|done].
    destruct (truthy shown); [|done]. unfold onRetryClick in Hstep.
    destruct (last (recordings (component w))); cbn in Hstep; by simplify_eq.
  - destruct (pending w !! k); [|done]. simplify_eq.
    cbn [component with_component with_pending with_failures].
    by rewrite settle_captured.
  - simplify_eq. cbn. by rewrite togglePlayback_recordings.
  - destruct (audioRefs (component w) !! recordingId) as [el|]; [|done].
    destruct (playing el); by simplify_eq.
  - destruct (orphans w !! k) as [el|]; [|done].
    destruct (playing el); by simplify_eq.
  - destruct (ended w); by simplify_eq.
  - destruct (recordings (component w) !! rendered w); [|done].
    case_decide; by simplify_eq.
  - destruct (textareaRef (component w)); by simplify_eq.
Qed.

(** X16.  The recordings list is append-only: whatever happens between
    two moments of a session, the identifiers, urls, payloads and
    timestamps of the earlier list are, in the same order, the beginning
    of those of the later one. *)
Theorem recordings_are_append_only (es : list Event) (w w' : World) :
  run es w = Some w' →
  captured <$> recordings (component w) `prefix_of` captured <$> recordings (component w').
Proof.
  revert w. induction es as [|e es IH]; intros w Hrun; simpl in Hrun.
  - by simplify_eq.
  - destruct (step e w) as [w1|] eqn:Hstep; [|done].
    etrans; [by eapply step_captured|by apply IH].
Qed.

Lemma recordings_are_append_only_witness :
  captured <$> recordings (component Samples.after_failure)
  `prefix_of` captured <$> recordings (component Samples.after_retry).
Proof.
  apply (recordings_are_append_only Samples.retry_succeeds).
  vm_compute. reflexivity.
Defined.

Lemma step_keeps_transcription (e : Event) (w w' : World) (i : nat)
    (r : AudioRecording) :
  step e w = Some w' →
  recordings (component w) !! i = Some r → is_Some (transcription r) →
  ∃ r', recordings (component w') !! i = Some r' ∧ is_Some (transcription r').
Proof.
  intros Hstep Hi Hsome. destruct e; unfold step in Hstep.
  - destruct (isTranscribing (component w)); [done|].
    unfold handleMicClick_begin, stopRecording, startRecording_begin in Hstep.
    repeat case_match; simplify_eq; eauto.
  - destruct (starting w); [done|]. simplify_eq. cbn.
    unfold startRecording_resume. repeat case_match; eauto.
  - destruct (isRecording (component w)); [|done].
    unfold stopRecording in Hstep. repeat case_match; simplify_eq; eauto.
  - destruct (stopping w); [done|]. simplify_eq. unfold ondataavailable.
    case_match; eauto.
  - destruct (stopping w !! k); [|done]. cbn in Hstep. simplify_eq. cbn.
    exists r. split; [|done]. by apply lookup_app_l_Some.
  - destruct (transcriptionError (component w)) as [shown|]; [|done].
    destruct (truthy shown); [|done]. unfold onRetryClick in Hstep.
    destruct (last (recordings (component w))); cbn in Hstep; simplify_eq; eauto.
  - destruct (pending w !! k) as [c|]; [|done]. simplify_eq.
    cbn [component with_component with_pending with_failures].
    destruct (received o) as [error|t] eqn:Hrecv.
    { unfold transcribeAudio_settle. rewrite Hrecv. cbn. eauto. }
    destruct (settle_success (call_recordingId c) o (component w) t Hrecv)
      as (-> & _ & _).
    rewrite list_lookup_fmap, Hi. cbn. eexists. split; [done|].
    case_decide; [by eexists|done].
  - simplify_eq. cbn. rewrite togglePlayback_recordings. eauto.
  - destruct (audioRefs (component w) !! recordingId) as [el|]; [|done].
    destruct (playing el); simplify_eq; eauto.
  - destruct (orphans w !! k) as [el|]; [|done].
    destruct (playing el); simplify_eq; eauto.
  - destruct (ended w); simplify_eq; eauto.
  - destruct (recordings (component w) !! rendered w); [|done].
    case_decide; simplify_eq; eauto.
  - destruct (textareaRef (component w)); simplify_eq; eauto.
Qed.

(** X17.  A recording that has a transcription never loses it: at every
    later moment of the session the recording at the same position has
    one. *)
Theorem transcription_is_never_removed (es : list Event) (w w' : World)
    (i : nat) (r : AudioRecording) :
  run es w = Some w' →
  recordings (component w) !! i = Some r → is_Some (transcription r) →
  ∃ r', recordings (component w') !! i = Some r' ∧
        captured r' = captured r ∧ is_Some (transcription r').
Proof.
  intros Hrun Hi Hsome.
  assert (∃ r', recordings (component w') !! i = Some r' ∧ is_Some (transcription r'))
    as (r' & Hi' & Hsome').
  { revert w r Hrun Hi Hsome. induction es as [|e es IH]; intros w r Hrun Hi Hsome;
      simpl in Hrun.
    - simplify_eq. eauto.
    - destruct (step e w) as [w1|] eqn:Hstep; [|done].
      destruct (step_keeps_transcription _ _ _ _ _ Hstep Hi Hsome) as (r1 & Hi1 & Hsome1).
      by eapply IH. }
  exists r'. split; [done|]. split; [|done].
  pose proof (recordings_are_append_only _ _ _ Hrun) as Hprefix.
  assert ((captured <$> recordings (component w)) !! i = Some (captured r)) as Hc
    by (by rewrite list_lookup_fmap, Hi).
  eapply prefix_lookup_Some in Hc; [|exact Hprefix].
  rewrite list_lookup_fmap, Hi' in Hc. cbn in Hc. congruence.
Qed.

Lemma transcription_is_never_removed_witness :
  ∃ r', recordings (component Samples.first_playing) !! 0%nat = Some r' ∧
        captured r' = captured (default Samples.memo_recording
                                  (recordings (component Samples.after_switch) !! 0%nat)) ∧
        is_Some (transcription r').
Proof.
  refine (transcription_is_never_removed [PlayClick "1000" true]
            Samples.after_switch Samples.first_playing 0 _ _ _ _).
  - vm_compute. reflexivity.
  - vm_compute. reflexivity.
  - vm_compute. eauto.
Defined.



(** A start that waits for the microphone while the first capture is
    made and ended: once it is granted, the session records while the
    request for the first recording is pending. *)
Lemma recording_while_transcribing :
  ∃ w, run [MicClick; MicClick; MediaAnswered Samples.microphone; StopClick;
            RecorderStopped 0 1000 1000 "blob:a";
            MediaAnswered Samples.microphone] mounted = Some w ∧
       isRecording (component w) = true ∧
       isTranscribing (component w) = true ∧
       length (pending w) = 1%nat.
Proof. vm_compute. eauto. Qed.

(** ** Playback, once more *)

(** X19.  [togglePlayback] touches the playback only: the same
    identifiers have an audio element afterwards, and the recordings, the
    draft text, the error and the flags are as before. *)
Theorem togglePlayback_touches_playback_only
    (recordingId : string) (playAllowed : bool) (s : Session) :
  let s' := togglePlayback recordingId playAllowed s in
  dom (audioRefs s') = dom (audioRefs s) ∧
  recordings s' = recordings s ∧
  textareaRef s' = textareaRef s ∧
  transcriptionError s' = transcriptionError s ∧
  isTranscribing s' = isTranscribing s ∧
  isRecording s' = isRecording s ∧
  hasPermission s' = hasPermission s ∧
  mediaRecorderRef s' = mediaRecorderRef s ∧
  audioChunksRef s' = audioChunksRef s.
Proof.
  cbn. unfold togglePlayback.
  destruct (audioRefs s !! recordingId) as [el|] eqn:Hel; [|done].
  case_decide as Hcur; cbn.
  { split; [|done]. apply dom_insert_lookup_L. eauto. }
  destruct (playingId s) as [cur|]; [|split; [|done]; apply dom_insert_lookup_L; eauto].
  destruct (truthy cur); [|split; [|done]; apply dom_insert_lookup_L; eauto].
  destruct (audioRefs s !! cur) as [curAudio|] eqn:HcurAudio; cbn;
    (split; [|done]).
  - rewrite dom_insert_lookup_L.
    + apply dom_insert_lookup_L. eauto.
    + destruct (decide (cur = recordingId)) as [->|Hne].
      * rewrite lookup_insert_eq. eauto.
      * rewrite lookup_insert_ne by done. eauto.
  - apply dom_insert_lookup_L. eauto.
Qed.

(** X20.  In a session whose recordings have pairwise distinct
    identifiers and whose [ended] events are delivered before the next
    click on a play button, playing a recording and toggling it again
    leaves nothing playing: the marker is cleared and every audio element
    is paused. *)
Theorem play_then_pause (es : list Event) (w : World)
    (recordingId : string) (first second : bool) (el : HTMLAudioElement) :
  run es mounted = Some w → timely es mounted →
  distinct_ids (component w) →
  audioRefs (component w) !! recordingId = Some el →
  playingId (component w) ≠ Some recordingId →
  let s' := togglePlayback recordingId second
              (togglePlayback recordingId first (component w)) in
  playingId s' = None ∧ orphans w = [] ∧ ∀ j, is_playing s' j = false.
Proof.
  intros Hrun Htimely Hdistinct Hel Hcur s'.
  assert (Hexcl : exclusive_inv w).
  { eapply run_exclusive_inv; [done..| |apply mounted_exclusive_inv].
    by apply distinct_ids_NoDup. }
  destruct Hexcl as (Hinv & Horph & _).
  destruct (togglePlayback_start recordingId first _ el Hinv Hel Hcur)
    as (refs & Hrefs & Hquiet & _ & Hmark & _).
  subst s'.
  rewrite (togglePlayback_pause _ _ _ (play first el))
    by (by rewrite ?Hrefs, ?lookup_insert_eq).
  split; [done|]. split; [done|]. intros j. unfold is_playing. cbn. rewrite Hrefs.
  destruct (decide (recordingId = j)) as [->|Hne].
  - by rewrite lookup_insert_eq.
  - rewrite !lookup_insert_ne by done.
    destruct (refs !! j) as [elj|] eqn:Hj; [|done]. eauto.
Qed.

Lemma play_then_pause_witness :
  playingId
    (togglePlayback "1000" true
       (togglePlayback "1000" true (component Samples.after_switch))) = None.
Proof.
  refine (proj1 (play_then_pause Samples.switching_playback Samples.after_switch
                   "1000" true true {| paused := true |} _ _ _ _ _)).
  - vm_compute. reflexivity.
  - vm_compute. repeat split.
  - apply NoDup_distinct_ids. vm_compute.
    apply NoDup_cons_2; [|apply NoDup_singleton].
    by intros [=]%list_elem_of_singleton.
  - vm_compute. reflexivity.
  - vm_compute. discriminate.
Defined.

Lemma initial_playback_refers : playback_refers initial.
Proof.
  split; cbn; [done|]. intros i [el Hi]. by rewrite lookup_empty in Hi.
Qed.

Lemma step_playback_refers (e : Event) (w w' : World) :
  step e w = Some w' →
  playback_refers (component w) → playback_refers (component w').
Proof.
  intros Hstep [Hmark Hkeys].
  destruct e; unfold step in Hstep.
  - destruct (isTranscribing (component w)); [done|].
    unfold handleMicClick_begin, stopRecording, startRecording_begin in Hstep.
    repeat case_match; by simplify_eq.
  - destruct (starting w); [done|]. simplify_eq. cbn.
    unfold startRecording_resume. by repeat case_match.
  - destruct (isRecording (component w)); [|done].
    unfold stopRecording in Hstep. repeat case_match; by simplify_eq.
  - destruct (stopping w); [done|]. simplify_eq. unfold ondataavailable.
    by case_match.
  - destruct (stopping w !! k); [|done]. cbn in Hstep. simplify_eq.
    split; cbn; [done|]. intros i Hi. rewrite fmap_app. apply elem_of_app.
    left. by apply Hkeys.
  - destruct (transcriptionError (component w)) as [shown|]; [|done].
    destruct (truthy shown); [|done]. unfold onRetryClick in Hstep.
    destruct (last (recordings (component w))); cbn in Hstep; by simplify_eq.
  - destruct (pending w !! k) as [c|]; [|done]. simplify_eq.
    cbn [component with_component with_pending with_failures].
    assert (Hframe : playingId (transcribeAudio_settle (call_recordingId c) o (component w))
                     = playingId (component w) ∧
                     audioRefs (transcribeAudio_settle (call_recordingId c) o (component w))
                     = audioRefs (component w)).
    { unfold transcribeAudio_settle. destruct (received o); cbn; [done|].
      by destruct (textareaRef (component w)). }
    destruct Hframe as [Hf1 Hf2]. unfold playback_refers.
    by rewrite Hf1, Hf2, settle_ids.
  - simplify_eq. cbn [component with_component].
    destruct (togglePlayback_touches_playback_only recordingId playAllowed (component w))
      as (Hdom & Hrecs & _).
    split.
    + intros i Hi. apply elem_of_dom. rewrite Hdom. apply elem_of_dom.
      revert Hi. unfold togglePlayback.
      destruct (audioRefs (component w) !! recordingId) as [el|] eqn:Hel;
        [|by apply Hmark].
      case_decide; cbn; [done|]. intros [= <-]. eauto.
    + intros i Hi. rewrite Hrecs. apply Hkeys.
      apply elem_of_dom. rewrite <- Hdom. by apply elem_of_dom.
  - destruct (audioRefs (component w) !! recordingId) as [el|] eqn:Hel; [|done].
    destruct (playing el); [|done]. simplify_eq. split; cbn.
    + intros i Hi. destruct (decide (recordingId = i)) as [->|Hne].
      * rewrite lookup_insert_eq. eauto.
      * rewrite lookup_insert_ne by done. by apply Hmark.
    + intros i Hi. apply Hkeys.
      destruct (decide (recordingId = i)) as [->|Hne]; [eauto|].
      by rewrite lookup_insert_ne in Hi.
  - destruct (orphans w !! k) as [el|]; [|done].
    destruct (playing el); by simplify_eq.
  - destruct (ended w); [done|]. simplify_eq. split; cbn; [done|]. done.
  - destruct (recordings (component w) !! rendered w) as [recording|] eqn:Hrd;
      [|done].
    case_decide as Hid; [|done]. simplify_eq. split; cbn.
    + intros i Hi. destruct (decide (id recording = i)) as [->|Hne].
      * rewrite lookup_insert_eq. eauto.
      * rewrite lookup_insert_ne by done. by apply Hmark.
    + intros i Hi. destruct (decide (id recording = i)) as [<-|Hne].
      * apply list_elem_of_fmap_2. by eapply list_elem_of_lookup_2.
      * rewrite lookup_insert_ne in Hi by done. by apply Hkeys.
  - destruct (textareaRef (component w)); by simplify_eq.
Qed.

(** X21.  Playback refers to what is there: whenever the marker names a
    recording, an audio element is registered for it, and every
    registered audio element belongs to a recording of the list. *)
Theorem playback_refers_to_recordings (es : list Event) (w : World) :
  run es mounted = Some w →
  (∀ i, playingId (component w) = Some i →
        is_Some (audioRefs (component w) !! i)) ∧
  (∀ i, is_Some (audioRefs (component w) !! i) →
        ∃ r, r ∈ recordings (component w) ∧ id r = i).
Proof.
  intros Hrun.
  assert (Hinv : playback_refers (component w)).
  { revert Hrun. generalize initial_playback_refers.
    change initial with (component mounted). generalize mounted.
    induction es as [|e es IH]; intros w0 Hinv Hrun; simpl in Hrun.
    - by simplify_eq.
    - destruct (step e w0) as [w1|] eqn:Hstep; [|done].
      eapply IH; [|done]. by eapply step_playback_refers. }
  destruct Hinv as [Hmark Hkeys]. split; [done|].
  intros i Hi. apply Hkeys in Hi.
  apply list_elem_of_fmap in Hi as (r & -> & Hr). eauto.
Qed.

Lemma playback_refers_to_recordings_witness :
  ∃ r, r ∈ recordings (component Samples.after_switch) ∧ id r = "2000".
Proof.
  refine (proj2 (playback_refers_to_recordings Samples.switching_playback
                   Samples.after_switch _) "2000" _).
  - vm_compute. reflexivity.
  - vm_compute. eauto.
Defined.

(** ** Export and upload *)

Lemma length_append (a b : string) :
  String.length (a +:+ b) = (String.length a + String.length b)%nat.
Proof. induction a as [|c a IH]; simpl; [done|]. by f_equal. Qed.

Lemma append_inv_tail (a b s : string) : a +:+ s = b +:+ s → a = b.
Proof.
  revert b. induction a as [|c a IH]; intros [|d b] Heq.
  - done.
  - apply (f_equal String.length) in Heq.
    rewrite !length_append in Heq. simpl in Heq. lia.
  - apply (f_equal String.length) in Heq.
    rewrite !length_append in Heq. simpl in Heq. lia.
  - simpl in Heq. injection Heq as -> Heq. f_equal. by apply IH.
Qed.

(** X22.  [downloadAudio] offers the object URL of the recording under
    the name [recording-<epoch milliseconds>.webm]; two recordings get the
    same file name only if they have the same timestamp. *)
Theorem download_names (r1 r2 : AudioRecording) :
  href (downloadAudio r1) = url r1 ∧
  (download (downloadAudio r1) = download (downloadAudio r2) →
   timestamp r1 = timestamp r2).
Proof.
  split; [done|]. unfold downloadAudio. cbn [download]. intros Heq.
  cbn in Heq. simplify_eq.
  match goal with
  | H : _ +:+ ".webm" = _ +:+ ".webm" |- _ => apply append_inv_tail in H
  end.
  by apply (inj pretty).
Qed.

(** X23.  The upload carries the payload as it is: one entry, named
    [audio], a file called [recording.webm] with the mime type of the
    invocation, as long as the payload and with the same byte at every
    offset. *)
Theorem upload_carries_the_payload (c : Call) :
  upload c = [("audio", Gateway.EntryFile (audioFile c))] ∧
  name (audioFile c) = "recording.webm" ∧
  type (blob_of (audioFile c)) = call_mimeType c ∧
  byteLength (bytes (blob_of (audioFile c))) = byteLength (bytes (call_blob c)) ∧
  (∀ i, (i < byteLength (bytes (call_blob c)))%N →
        byteAt (bytes (blob_of (audioFile c))) i = byteAt (bytes (call_blob c)) i).
Proof.
  repeat split; cbn; [lia|].
  intros i Hi. apply N.ltb_lt in Hi. by rewrite Hi.
Qed.
